(** * Geography utilities of the ground-control front end

    A shallow embedding of the geography helpers of the application
    (ellipsoid models, the flat-Earth coordinate system, polar conversion
    and angle normalisation) together with the properties the
    specification states about them.

    JavaScript numbers are modelled as the real numbers extended with the
    three non-finite values of IEEE 754 ([Infinity], [-Infinity], [NaN]).
    Arithmetic on finite values is exact: rounding and the sign of zero
    are not modelled, so the statements below are statements over real
    arithmetic.  The exception is [Module Binary64], which rounds every
    operation of [toPolar] to the nearest binary64 value, and the
    statement about it. *)

From Stdlib Require Import Reals Lra Lia ZArith String Ascii List DecimalString.
From stdpp Require Import gmap list.

Open Scope R_scope.

(** ** JavaScript numbers *)

Module Num.

Inductive number : Type :=
| Fin (r : R)
| PInf
| NInf
| NaN.

Definition is_finite (x : number) : Prop :=
  match x with Fin _ => True | _ => False end.

(** Unary minus. *)
Definition neg (x : number) : number :=
  match x with
  | Fin r => Fin (- r)
  | PInf => NInf
  | NInf => PInf
  | NaN => NaN
  end.

(** [x + y]: opposite infinities cancel to [NaN]. *)
Definition add (x y : number) : number :=
  match x, y with
  | Fin a, Fin b => Fin (a + b)
  | NaN, _ | _, NaN => NaN
  | PInf, NInf | NInf, PInf => NaN
  | PInf, _ | _, PInf => PInf
  | NInf, _ | _, NInf => NInf
  end.

(** [x - y]. *)
Definition sub (x y : number) : number := add x (neg y).

(** An infinity [s] multiplied by the finite value [r]. *)
Definition scale_inf (s : number) (r : R) : number :=
  if Req_dec_T r 0 then NaN
  else if Rlt_dec 0 r then s else neg s.

(** [x * y]: zero times an infinity is [NaN]. *)
Definition mul (x y : number) : number :=
  match x, y with
  | Fin a, Fin b => Fin (a * b)
  | NaN, _ | _, NaN => NaN
  | Fin a, s => scale_inf s a
  | s, Fin b => scale_inf s b
  | PInf, PInf | NInf, NInf => PInf
  | PInf, NInf | NInf, PInf => NInf
  end.

(** [x / y]: a finite value divided by zero is an infinity of the sign of
    the dividend (the zero divisor is taken as [+0]), and [0 / 0] is
    [NaN]. *)
Definition div (x y : number) : number :=
  match x, y with
  | Fin a, Fin b =>
      if Req_dec_T b 0 then
        if Req_dec_T a 0 then NaN
        else if Rlt_dec 0 a then PInf else NInf
      else Fin (a / b)
  | NaN, _ | _, NaN => NaN
  | Fin _, _ => Fin 0
  | s, Fin b => if Rlt_dec b 0 then neg s else s
  | _, _ => NaN
  end.

(** Truncation of a real towards zero. *)
Definition Ztrunc (r : R) : Z :=
  if Rle_dec 0 r then Zfloor r else Zceil r.

(** The remainder of the truncating division of [a] by [b]; it has the
    sign of the dividend. *)
Definition Rrem (a b : R) : R := a - b * IZR (Ztrunc (a / b)).

(** [x % y]. *)
Definition rem (x y : number) : number :=
  match x, y with
  | Fin a, Fin b => if Req_dec_T b 0 then NaN else Fin (Rrem a b)
  | Fin a, (PInf | NInf) => Fin a
  | _, _ => NaN
  end.

(** [x < y] and [x > y]; every comparison with [NaN] is false. *)
Definition ltb (x y : number) : bool :=
  match x, y with
  | Fin a, Fin b => if Rlt_dec a b then true else false
  | NaN, _ | _, NaN => false
  | NInf, (Fin _ | PInf) => true
  | Fin _, PInf => true
  | _, _ => false
  end.

Definition gtb (x y : number) : bool := ltb y x.

End Num.

Export Num.

Declare Scope js_scope.
Delimit Scope js_scope with js.
Bind Scope js_scope with number.
Notation "x + y" := (add x y) : js_scope.
Notation "x - y" := (sub x y) : js_scope.
Notation "x * y" := (mul x y) : js_scope.
Notation "x / y" := (div x y) : js_scope.
Notation "- x" := (neg x) : js_scope.
Notation "x 'mod' y" := (rem x y) : js_scope.
Notation "x <? y" := (ltb x y) : js_scope.
Notation "x >? y" := (gtb x y) : js_scope.

(** ** The [Math] object *)

Module Math.

Definition PI : number := Fin Rtrigo1.PI.

Definition sin (x : number) : number :=
  match x with Fin r => Fin (Rtrigo_def.sin r) | _ => NaN end.

Definition cos (x : number) : number :=
  match x with Fin r => Fin (Rtrigo_def.cos r) | _ => NaN end.

Definition sqrt (x : number) : number :=
  match x with
  | Fin r => if Rlt_dec r 0 then NaN else Fin (R_sqrt.sqrt r)
  | PInf => PInf
  | _ => NaN
  end.

(** Whether a real is an integer, and whether it is an odd one. *)
Definition is_integer (r : R) : bool :=
  if Req_dec_T (IZR (Zfloor r)) r then true else false.

Definition is_odd_integer (r : R) : bool :=
  is_integer r && Z.odd (Zfloor r).

(** [Math.pow(base, exponent)], also written [base ** exponent]. *)
Definition pow (base exponent : number) : number :=
  match exponent with
  | NaN => NaN
  | Fin e =>
      if Req_dec_T e 0 then Fin 1
      else
        match base with
        | NaN => NaN
        | PInf => if Rlt_dec 0 e then PInf else Fin 0
        | NInf =>
            if Rlt_dec 0 e
            then (if is_odd_integer e then NInf else PInf)
            else Fin 0
        | Fin b =>
            if Rlt_dec 0 b then Fin (Rpower b e)
            else if Req_dec_T b 0 then (if Rlt_dec 0 e then Fin 0 else PInf)
            else if is_integer e then Fin (powerRZ b (Zfloor e))
            else NaN
        end
  | PInf =>
      match base with
      | Fin b =>
          if Rlt_dec 1 (Rabs b) then PInf
          else if Req_dec_T (Rabs b) 1 then NaN else Fin 0
      | NaN => NaN
      | _ => PInf
      end
  | NInf =>
      match base with
      | Fin b =>
          if Rlt_dec 1 (Rabs b) then Fin 0
          else if Req_dec_T (Rabs b) 1 then NaN else PInf
      | NaN => NaN
      | _ => Fin 0
      end
  end.

(** The angle of the point [(x, y)] in the interval (-PI, PI], on reals. *)
Definition Ratan2 (y x : R) : R :=
  if Rlt_dec 0 x then atan (y / x)
  else if Rlt_dec x 0 then
    (if Rlt_dec y 0 then atan (y / x) - Rtrigo1.PI
     else atan (y / x) + Rtrigo1.PI)
  else if Rlt_dec 0 y then Rtrigo1.PI / 2
  else if Rlt_dec y 0 then - (Rtrigo1.PI / 2)
  else 0.

(** [Math.atan2(y, x)]. *)
Definition atan2 (y x : number) : number :=
  match y, x with
  | Fin b, Fin a => Fin (Ratan2 b a)
  | NaN, _ | _, NaN => NaN
  | Fin b, PInf => Fin 0
  | Fin b, NInf => if Rlt_dec b 0 then Fin (- Rtrigo1.PI) else Fin Rtrigo1.PI
  | PInf, Fin _ => Fin (Rtrigo1.PI / 2)
  | NInf, Fin _ => Fin (- (Rtrigo1.PI / 2))
  | PInf, PInf => Fin (Rtrigo1.PI / 4)
  | PInf, NInf => Fin (3 * Rtrigo1.PI / 4)
  | NInf, PInf => Fin (- (Rtrigo1.PI / 4))
  | NInf, NInf => Fin (- (3 * Rtrigo1.PI / 4))
  end.

End Math.

Open Scope string_scope.

(** ** Coordinates

    A coordinate is a two-element array of numbers; [c.[0]] and [c.[1]]
    are its entries. *)

Definition coordinate : Type := number * number.

Notation "c .[0]" := (fst c) (at level 1, left associativity, format "c .[0]").
Notation "c .[1]" := (snd c) (at level 1, left associativity, format "c .[1]").

(** Modelled from the spec: [Coordinate.rotate] of the OpenLayers mapping
    library, which the repository imports and whose source is not part of
    it; the specification calls it the standard 2D rotation.  The library
    function overwrites the two entries of its argument and returns it;
    this is its effect on the entries (the in-place version is
    [Heap.rotate]). *)
Definition Coordinate_rotate (c : coordinate) (angle : number) : coordinate :=
  let cosAngle := Math.cos angle in
  let sinAngle := Math.sin angle in
  let x := (c.[0] * cosAngle - c.[1] * sinAngle)%js in
  let y := (c.[1] * cosAngle + c.[0] * sinAngle)%js in
  (x, y).

(** ** Ellipsoid models *)

Record EllipsoidModel : Type := {
  inverseFlattening : number;
  semiMajorAxis : number;
  flattening : number;
  eccentricitySquared : number;
  eccentricity : number;
  semiMinorAxis : number;
  meanRadius : number
}.

Definition makeEllipsoidModel (semiMajorAxis inverseFlattening : number)
  : EllipsoidModel :=
  let flattening := (Fin 1 / inverseFlattening)%js in
  let eccentricitySquared := (flattening * (Fin 2 - flattening))%js in
  let eccentricity := Math.sqrt eccentricitySquared in
  let semiMinorAxis := (semiMajorAxis * (Fin 1 - flattening))%js in
  let meanRadius := ((semiMinorAxis + semiMajorAxis * Fin 2) / Fin 3)%js in
  {| inverseFlattening := inverseFlattening;
     semiMajorAxis := semiMajorAxis;
     flattening := flattening;
     eccentricitySquared := eccentricitySquared;
     eccentricity := eccentricity;
     semiMinorAxis := semiMinorAxis;
     meanRadius := meanRadius |}.

Definition WGS84 : EllipsoidModel :=
  makeEllipsoidModel (Fin 6378137) (Fin 298.257223563).

(** ** The flat-Earth coordinate system *)

(** The outcome of a call that may throw an [Error]. *)
Inductive completion (A : Type) : Type :=
| Normal (a : A)
| Throw (message : string).

Arguments Normal {A} a.
Arguments Throw {A} message.

(** The fields of an instance.  [O] is the representation of the origin:
    a [coordinate] when arrays are read as values, a reference into the
    store in [Module Heap].  The constructor keeps the array it is given,
    not a copy; read as a value, the origin is the content of that array
    at construction, which the methods never change. *)
Record FlatEarthCoordinateSystem {O : Type} : Type := {
  _origin : O;
  _angle : number;
  _ellipsoid : EllipsoidModel;
  _type : string;
  _piOver180 : number;
  _r1 : number;
  _r2OverCosOriginLatInRadians : number;
  _yMul : number
}.

Arguments FlatEarthCoordinateSystem O : clear implicits.

(** [_precalculate] fills in the cached fields of the instance whose
    other four fields the constructor has just set. *)
Definition _precalculate {O : Type} (origin : O) (originLat : number)
  (angle : number) (ellipsoid : EllipsoidModel) (type : string)
  : FlatEarthCoordinateSystem O :=
  let piOver180 := (Math.PI / Fin 180)%js in
  let originLatInRadians := (originLat * piOver180)%js in
  let radius := semiMajorAxis ellipsoid in
  let eccSq := eccentricitySquared ellipsoid in
  let x := (Fin 1 - eccSq * Math.pow (Math.sin originLatInRadians) (Fin 2))%js in
  {| _origin := origin;
     _angle := angle;
     _ellipsoid := ellipsoid;
     _type := type;
     _piOver180 := piOver180;
     _r1 := (radius * (Fin 1 - eccSq) / Math.pow x (Fin 1.5))%js;
     _r2OverCosOriginLatInRadians :=
       (radius / Math.sqrt x * Math.cos originLatInRadians)%js;
     _yMul := if String.eqb type "neu" then Fin 1 else Fin (-1) |}.

Definition constructor (origin : coordinate) (angle : number) (type : string)
  (ellipsoid : EllipsoidModel)
  : completion (FlatEarthCoordinateSystem coordinate) :=
  if negb (String.eqb type "neu") && negb (String.eqb type "nwu") then
    Throw ("unknown coordinate system type: " ++ type)
  else
    Normal (_precalculate origin origin.[1]
              (angle * Math.PI / Fin 180)%js ellipsoid type).

Definition fromLonLat (this : FlatEarthCoordinateSystem coordinate)
  (coords : coordinate) : coordinate :=
  let result :=
    (((coords.[1] - (_origin this).[1]) * _piOver180 this * _r1 this)%js,
     ((coords.[0] - (_origin this).[0]) * _piOver180 this
      * _r2OverCosOriginLatInRadians this)%js) in
  let result := Coordinate_rotate result (- _angle this)%js in
  (result.[0], (result.[1] * _yMul this)%js).

Definition toLonLat (this : FlatEarthCoordinateSystem coordinate)
  (coords : coordinate) : coordinate :=
  let result := (coords.[0], (coords.[1] * _yMul this)%js) in
  let result := Coordinate_rotate result (_angle this) in
  ((result.[1] / _r2OverCosOriginLatInRadians this / _piOver180 this
    + (_origin this).[0])%js,
   (result.[0] / _r1 this / _piOver180 this + (_origin this).[1])%js).

(** ** Polar coordinates *)

Definition toPolar (coords : coordinate) : coordinate :=
  let dist := Math.sqrt (coords.[0] * coords.[0] + coords.[1] * coords.[1])%js in
  if (dist >? Fin 0)%js then
    let angle := (Math.atan2 coords.[1] coords.[0] * Fin 180 / Math.PI)%js in
    (dist, if (angle <? Fin 0)%js then (angle + Fin 360)%js else angle)
  else
    (Fin 0, Fin 0).

(** ** Angle normalisation and [Number.prototype.toFixed] *)

Fixpoint zeros (k : nat) : string :=
  match k with
  | O => ""
  | S k' => String "0" (zeros k')
  end.

(** The decimal digits of a non-negative integer, ["0"] for zero. *)
Definition digits (n : Z) : string :=
  NilZero.string_of_uint (N.to_uint (Z.to_N n)).

(** The digits of [n] with a decimal point [f] places from the right,
    padded with zeros on the left to [f + 1] characters. *)
Definition fixed_digits (n : Z) (f : nat) : string :=
  let m := digits n in
  if Nat.eqb f 0 then m
  else
    let k := String.length m in
    let m := if Nat.leb k f then zeros (f + 1 - k) ++ m else m in
    let k := String.length m in
    substring 0 (k - f) m ++ "." ++ substring (k - f) f m.

(** The integer [n] for which [n / 10^f - x] is closest to zero, the
    larger one when there are two. *)
Definition nearest_scaled (x : R) (f : nat) : Z :=
  Zfloor (x * 10 ^ f + / 2).

Section NumberFormatting.

(** The text of a finite number as [Number::toString] gives it.  It
    depends on the binary representation of the number, so it is a
    parameter; [toFixed] uses it from [10^21] on only. *)
Variable finite_toString : R -> string.

Definition Number_toString (x : number) : string :=
  match x with
  | Fin r => finite_toString r
  | PInf => "Infinity"
  | NInf => "-Infinity"
  | NaN => "NaN"
  end.

(** [x.toFixed(fractionDigits)], for [fractionDigits] up to 100. *)
Definition toFixed (x : number) (fractionDigits : nat) : string :=
  match x with
  | Fin r =>
      let s := if Rlt_dec r 0 then "-" else "" in
      let r := if Rlt_dec r 0 then (- r)%R else r in
      if Rle_dec (10 ^ 21) r then s ++ finite_toString r
      else s ++ fixed_digits (nearest_scaled r fractionDigits) fractionDigits
  | _ => Number_toString x
  end.

Definition normalizeAngle (angle : number) : string :=
  toFixed (((angle mod Fin 360) + Fin 360) mod Fin 360)%js 2.

End NumberFormatting.

(** The value a fixed-point text stands for: [Some (n, f)] for the text
    of [n / 10^f], made of decimal digits and one point followed by [f]
    digits. *)
Definition digit_value (c : ascii) : option Z :=
  let n := nat_of_ascii c in
  if Nat.leb 48 n && Nat.leb n 57 then Some (Z.of_nat (n - 48)) else None.

Fixpoint read_digits (s : string) (acc : Z) : option (Z * string) :=
  match s with
  | EmptyString => Some (acc, EmptyString)
  | String c rest =>
      match digit_value c with
      | Some d => read_digits rest (10 * acc + d)
      | None => Some (acc, s)
      end
  end.

(** [all_upto k P]: [P] holds of 0, 1, ..., [k]. *)
Fixpoint all_upto (k : nat) (P : nat -> bool) : bool :=
  match k with
  | O => P O
  | S k' => P k && all_upto k' P
  end.

Definition read_fixed (s : string) : option (Z * nat) :=
  match s with
  | EmptyString => None
  | String c _ =>
      match digit_value c, read_digits s 0 with
      | Some _, Some (whole, String "." frac) =>
          match read_digits frac whole with
          | Some (n, EmptyString) => Some (n, String.length frac)
          | _ => None
          end
      | _, _ => None
      end
  end.

(** ** Arrays as shared objects

    The methods receive and return arrays by reference.  Here the arrays
    live in a store, an entry read past the end of an array is
    [undefined], and a call is a state transformer that fails only when it
    dereferences something that is not an array. *)

Module Heap.

Abbreviation loc := positive.

Inductive value : Type :=
| VNum (n : number)
| VUndefined.

(** The conversion every arithmetic operator applies to its operands. *)
Definition ToNumber (v : value) : number :=
  match v with
  | VNum n => n
  | VUndefined => NaN
  end.

Abbreviation heap := (gmap loc (list value)).

Definition M (A : Type) : Type := heap -> option (A * heap).

Definition ret {A : Type} (a : A) : M A := fun h => Some (a, h).

Definition bind {A B : Type} (m : M A) (k : A -> M B) : M B :=
  fun h =>
    match m h with
    | Some (a, h') => k a h'
    | None => None
    end.

Notation "'let*' x := m 'in' k" := (bind m (fun x => k))
  (at level 10, x name, m at level 100, k at level 200).

(** The array literal [[v0, v1, ...]]: a new object. *)
Definition new_array (entries : list value) : M loc :=
  fun h => let l := fresh (dom h) in Some (l, <[l := entries]> h).

(** [a[i]]. *)
Definition get (a : loc) (i : nat) : M value :=
  fun h =>
    match h !! a with
    | Some entries => Some (default VUndefined (entries !! i), h)
    | None => None
    end.

(** The entries of an array after [a[i] = v]; the array grows when [i] is
    past its end. *)
Definition store (entries : list value) (i : nat) (v : value) : list value :=
  if Nat.ltb i (length entries) then <[i := v]> entries
  else entries ++ replicate (i - length entries) VUndefined ++ [v].

(** [a[i] = v]. *)
Definition set (a : loc) (i : nat) (v : value) : M unit :=
  fun h =>
    match h !! a with
    | Some entries => Some (tt, <[a := store entries i v]> h)
    | None => None
    end.

(** Modelled from the spec: [Coordinate.rotate] of the OpenLayers mapping
    library (see [Coordinate_rotate]), as the in-place update it is. *)
Definition rotate (c : loc) (angle : number) : M loc :=
  let cosAngle := Math.cos angle in
  let sinAngle := Math.sin angle in
  let* c0 := get c 0 in
  let* c1 := get c 1 in
  let x := (ToNumber c0 * cosAngle - ToNumber c1 * sinAngle)%js in
  let y := (ToNumber c1 * cosAngle + ToNumber c0 * sinAngle)%js in
  let* _ := set c 0 (VNum x) in
  let* _ := set c 1 (VNum y) in
  ret c.

Definition fromLonLat (this : FlatEarthCoordinateSystem loc) (coords : loc)
  : M loc :=
  let* c1 := get coords 1 in
  let* o1 := get (_origin this) 1 in
  let* c0 := get coords 0 in
  let* o0 := get (_origin this) 0 in
  let* result :=
    new_array
      [VNum ((ToNumber c1 - ToNumber o1) * _piOver180 this * _r1 this)%js;
       VNum ((ToNumber c0 - ToNumber o0) * _piOver180 this
             * _r2OverCosOriginLatInRadians this)%js] in
  let* _ := rotate result (- _angle this)%js in
  let* r1 := get result 1 in
  let* _ := set result 1 (VNum (ToNumber r1 * _yMul this)%js) in
  ret result.

Definition toLonLat (this : FlatEarthCoordinateSystem loc) (coords : loc)
  : M loc :=
  let* c0 := get coords 0 in
  let* c1 := get coords 1 in
  let* result := new_array [c0; VNum (ToNumber c1 * _yMul this)%js] in
  let* _ := rotate result (_angle this) in
  let* r1 := get result 1 in
  let* o0 := get (_origin this) 0 in
  let* r0 := get result 0 in
  let* o1 := get (_origin this) 1 in
  new_array
    [VNum (ToNumber r1 / _r2OverCosOriginLatInRadians this / _piOver180 this
           + ToNumber o0)%js;
     VNum (ToNumber r0 / _r1 this / _piOver180 this + ToNumber o1)%js].

(** The first two entries of an array as the arithmetic operators see
    them. *)
Definition as_coordinate (entries : list value) : coordinate :=
  (ToNumber (default VUndefined (entries !! 0%nat)),
   ToNumber (default VUndefined (entries !! 1%nat))).

(** The instance [this], whose origin is a reference, with the entries
    [origin] of the array it refers to in place of the reference. *)
Definition with_origin (this : FlatEarthCoordinateSystem loc)
  (origin : coordinate) : FlatEarthCoordinateSystem coordinate :=
  {| _origin := origin;
     _angle := _angle this;
     _ellipsoid := _ellipsoid this;
     _type := _type this;
     _piOver180 := _piOver180 this;
     _r1 := _r1 this;
     _r2OverCosOriginLatInRadians := _r2OverCosOriginLatInRadians this;
     _yMul := _yMul this |}.

(** The array that holds the coordinate [c]. *)
Definition array_of (c : coordinate) : list value := [VNum c.[0]; VNum c.[1]].

End Heap.

(** ** Well-formed configurations *)

(** An ellipsoid the coordinate system can work on: a finite positive
    semi-major axis and a squared eccentricity in [0, 1). *)
Definition physically_valid (el : EllipsoidModel) : Prop :=
  exists a e2 : R,
    semiMajorAxis el = Fin a /\ eccentricitySquared el = Fin e2
    /\ 0 < a /\ 0 <= e2 < 1.

(** The squared eccentricity of the WGS84 ellipsoid. *)
Definition WGS84_e2 : R :=
  1 / 298.257223563 * (2 - 1 / 298.257223563).

Definition valid_type (type : string) : Prop :=
  type = "neu" \/ type = "nwu".

(** The real value of the three cached coefficients for an origin latitude
    [lat0] (in degrees), a semi-major axis [a] and a squared eccentricity
    [e2]. *)
Definition x_at (e2 lat0 : R) : R :=
  1 - e2 * (sin (lat0 * (PI / 180)) * sin (lat0 * (PI / 180))).

Definition r1_at (a e2 lat0 : R) : R :=
  a * (1 - e2) / Rpower (x_at e2 lat0) 1.5.

Definition r2_at (a e2 lat0 : R) : R :=
  a / sqrt (x_at e2 lat0) * cos (lat0 * (PI / 180)).

(** The instance [cs] holds finite numbers only: origin [(lon0, lat0)],
    angle [theta] (radians), degree-to-radian factor [k], scale factors
    [R1] and [R2] and axis multiplier [m]. *)
Definition finite_fields (cs : FlatEarthCoordinateSystem coordinate)
  (lon0 lat0 theta k R1 R2 m : R) : Prop :=
  _origin cs = (Fin lon0, Fin lat0)
  /\ _angle cs = Fin theta
  /\ _piOver180 cs = Fin k
  /\ _r1 cs = Fin R1
  /\ _r2OverCosOriginLatInRadians cs = Fin R2
  /\ _yMul cs = Fin m.

(** ** Distances between coordinates *)

(** [a[i]] as the arithmetic operators see it: [undefined], hence [NaN],
    past the end of the array. *)
Definition entry (a : list number) (i : nat) : number :=
  default NaN (a !! i).

Definition euclideanDistance (first second : list number) : number :=
  let n := Nat.min (length first) (length second) in
  let sum :=
    fold_left
      (fun sum i => (sum + Math.pow (entry first i - entry second i) (Fin 2))%js)
      (seq 0 n) (Fin 0) in
  Math.sqrt sum.

(** The body of the loop of [euclideanDistance]. *)
Definition distance_step (first second : list number) (sum : number) (i : nat)
  : number :=
  (sum + Math.pow (entry first i - entry second i) (Fin 2))%js.

(** The sum of the squared differences of two lists of reals, over the
    length of the shorter one. *)
Fixpoint sum_sq_diff (xs ys : list R) : R :=
  match xs, ys with
  | x :: xs', y :: ys' => (x - y) * (x - y) + sum_sq_diff xs' ys'
  | _, _ => 0
  end.

(** The two-element array of a coordinate pair. *)
Definition pair_array (c : coordinate) : list number := [c.[0]; c.[1]].

(** ** Translation of coordinate lists *)

(** [v === 0] for an array entry [v] ([None] is [undefined]). *)
Definition strictly_zero (v : option number) : bool :=
  match v with
  | Some (Fin r) => if Req_dec_T r 0 then true else false
  | _ => false
  end.

(** A number or [undefined] as an operand of [+]. *)
Definition operand (v : option number) : number := default NaN v.

Definition translateBy (displacement : list number)
  (coordinates : list (list number)) : list (list number) :=
  let dx := displacement !! 0%nat in
  let dy := displacement !! 1%nat in
  if strictly_zero dx && strictly_zero dy then coordinates
  else
    map (fun coordinate =>
           [(operand (coordinate !! 0%nat) + operand dx)%js;
            (operand (coordinate !! 1%nat) + operand dy)%js])
        coordinates.

(** ** Features of the layers of a map *)

Section Features.

(** The features of the mapping library; they are objects, so every
    feature is truthy. *)
Variable Feature : Type.

(** A source; its [getFeatureById] method may be missing, and returns
    [null] for an unknown identifier. *)
Record Source : Type := {
  getFeatureById : option (string -> option Feature)
}.

(** A layer; its [getSource] method may be missing and may return nothing. *)
Record Layer : Type := {
  getVisible : bool;
  getSource : option (option Source)
}.

(** The loop over the slots of [features] for one source: an empty slot
    takes the feature the source has for the identifier of the slot.
    [features] has the length of [featureIds], so [featureIds[i]] exists
    for every slot. *)
Definition fill_from_source (lookup_feature : string -> option Feature)
  (featureIds : list string) (features : list (option Feature))
  : list (option Feature) :=
  fold_left
    (fun features i =>
       match features !! i, featureIds !! i with
       | Some None, Some id =>
           match lookup_feature id with
           | Some feature => <[i := Some feature]> features
           | None => features
           end
       | _, _ => features
       end)
    (seq 0 (length features)) features.

(** The body of [forEach] for one layer. *)
Definition visit_layer (featureIds : list string)
  (features : list (option Feature)) (layer : Layer)
  : list (option Feature) :=
  if negb (getVisible layer) then features
  else
    match getSource layer with
    | Some (Some source) =>
        match getFeatureById source with
        | Some lookup_feature =>
            fill_from_source lookup_feature featureIds features
        | None => features
        end
    | _ => features
    end.

(** [findFeaturesById(map, featureIds)], [layers] being the layers of the
    map in the order [forEach] visits them. *)
Definition findFeaturesById (layers : list Layer) (featureIds : list string)
  : list (option Feature) :=
  fold_left (visit_layer featureIds) layers
    (replicate (length featureIds) None).

Definition findFeatureById (layers : list Layer) (featureId : string)
  : option Feature :=
  mjoin (findFeaturesById layers [featureId] !! 0%nat).

(** A slot after one source: a feature already found stays, an empty
    slot takes what the source has. *)
Definition merge_slot (lookup_feature : string -> option Feature)
  (slot : option Feature) (id : string) : option Feature :=
  match slot with
  | Some feature => Some feature
  | None => lookup_feature id
  end.

(** What a visible layer with a source that can look features up has for
    an identifier. *)
Definition layer_feature (layer : Layer) (id : string) : option Feature :=
  if getVisible layer then
    match getSource layer with
    | Some (Some source) =>
        match getFeatureById source with
        | Some lookup_feature => lookup_feature id
        | None => None
        end
    | _ => None
    end
  else None.

(** The feature of the first layer that has one for the identifier. *)
Fixpoint first_feature (layers : list Layer) (id : string) : option Feature :=
  match layers with
  | [] => None
  | layer :: rest =>
      match layer_feature layer id with
      | Some feature => Some feature
      | None => first_feature rest id
      end
  end.

End Features.

Arguments getFeatureById {Feature} _.
Arguments getVisible {Feature} _.
Arguments getSource {Feature} _.
Arguments fill_from_source {Feature} _ _ _.
Arguments visit_layer {Feature} _ _ _.
Arguments findFeaturesById {Feature} _ _.
Arguments findFeatureById {Feature} _ _.
Arguments merge_slot {Feature} _ _ _.
Arguments layer_feature {Feature} _ _.
Arguments first_feature {Feature} _ _.

(** ** The closest point of a geometry *)

(** [minBy] of the lodash library, which the module imports: the first
    element of [array] whose value under [iteratee] is smallest.  An
    element is taken when its value is below the smallest so far; the
    first one taken is the first whose value is not [NaN]; the result is
    [undefined] when none is taken. *)
Definition minBy_step {A : Type} (iteratee : A -> number)
  (best : option (A * number)) (value : A) : option (A * number) :=
  let current := iteratee value in
  match best with
  | None =>
      match current with
      | NaN => None
      | _ => Some (value, current)
      end
  | Some (_, computed) =>
      if (current <? computed)%js then Some (value, current) else best
  end.

Definition minBy {A : Type} (array : list A) (iteratee : A -> number)
  : option A :=
  fst <$> fold_left (minBy_step iteratee) array None.

(** What the loop of [minBy] holds after the elements [seen]. *)
Definition minBy_invariant {A : Type} (iteratee : A -> number)
  (seen : list A) (best : option (A * number)) : Prop :=
  match best with
  | None => forall q : A, In q seen -> iteratee q = NaN
  | Some (p, computed) =>
      In p seen /\ computed = iteratee p /\ computed <> NaN
      /\ forall q : A, In q seen -> (iteratee q <? computed)%js = false
  end.

(** A geometry of the mapping library, by what [getExactClosestPointOf]
    asks of it: whether it contains a coordinate, and either its closest
    point to a coordinate or, for a geometry collection, a multi-polygon
    or a multi-linestring, its parts. *)
Inductive Geometry : Type :=
| Single (intersectsCoordinate : list number -> bool)
         (getClosestPoint : list number -> list number)
| Multi (intersectsCoordinate : list number -> bool)
        (subGeometries : list Geometry).

(** The results of a list of calls, or the first error among them. *)
Fixpoint all_normal {A : Type} (results : list (completion A))
  : completion (list A) :=
  match results with
  | [] => Normal []
  | Throw message :: _ => Throw message
  | Normal a :: rest =>
      match all_normal rest with
      | Normal others => Normal (a :: others)
      | Throw message => Throw message
      end
  end.

(** The points of a list none of which is [undefined]. *)
Fixpoint all_defined {A : Type} (values : list (option A)) : option (list A) :=
  match values with
  | [] => Some []
  | None :: _ => None
  | Some a :: rest =>
      match all_defined rest with
      | Some others => Some (a :: others)
      | None => None
      end
  end.

(** The error of reading [length] of [undefined], which
    [euclideanDistance] does when [minBy] hands it a missing point; the
    text of its message depends on the engine. *)
Definition TypeError : string := "TypeError".

Fixpoint getExactClosestPointOf (geometry : Geometry)
  (coordinate : list number) : completion (option (list number)) :=
  match geometry with
  | Single intersectsCoordinate getClosestPoint =>
      if intersectsCoordinate coordinate then Normal (Some coordinate)
      else Normal (Some (getClosestPoint coordinate))
  | Multi intersectsCoordinate subGeometries =>
      if intersectsCoordinate coordinate then Normal (Some coordinate)
      else
        match
          all_normal
            (map (fun subGeometry =>
                    getExactClosestPointOf subGeometry coordinate)
                 subGeometries)
        with
        | Throw message => Throw message
        | Normal closestPoints =>
            match all_defined closestPoints with
            | Some points =>
                Normal (minBy points (euclideanDistance coordinate))
            | None => Throw TypeError
            end
        end
  end.

(** ** Binary64 arithmetic

    A JavaScript number is a binary64 value, and an arithmetic operation
    returns the exact result rounded to the nearest binary64 value, the
    one with an even significand on a tie.  The definitions above leave
    the rounding out; [Module Binary64] has it, for the operations that
    [toPolar] uses.  [Math.atan2] is implementation-approximated in
    ECMAScript, so the rounded [toPolar] takes the implementation as an
    argument.  The sign of zero is not modelled. *)

Module Binary64.

(** The integer nearest to [x], the even one of the two on a tie. *)
Definition nearest_even (x : R) : Z :=
  let f := Zfloor x in
  if Rlt_dec (x - IZR f) (/ 2) then f
  else if Rlt_dec (/ 2) (x - IZR f) then (f + 1)%Z
  else if Z.even f then f else (f + 1)%Z.

(** The exponent of the binade of [x]; subnormal values have the least
    exponent of the format. *)
Definition exponent (x : R) : Z :=
  Z.max (-1022) (Zfloor (ln (Rabs x) / ln 2)).

(** The binary64 value nearest to the real [x]: 53 significant bits, and
    an infinity when the rounded magnitude reaches [2 ^ 1024]. *)
Definition round (x : R) : number :=
  if Req_dec_T x 0 then Fin 0
  else
    let e := exponent x in
    let r := IZR (nearest_even (x * powerRZ 2 (52 - e))) * powerRZ 2 (e - 52) in
    if Rlt_dec (Rabs r) (powerRZ 2 1024) then Fin r
    else if Rlt_dec 0 x then PInf else NInf.

(** The operations: the exact result, rounded. *)
Definition rounded (x : number) : number :=
  match x with Fin r => round r | _ => x end.

Definition add (x y : number) : number := rounded (x + y)%js.
Definition mul (x y : number) : number := rounded (x * y)%js.
Definition div (x y : number) : number := rounded (x / y)%js.
Definition sqrt (x : number) : number := rounded (Math.sqrt x).
Definition PI : number := rounded Math.PI.

(** [toPolar] with every operation rounded. *)
Definition toPolar (atan2 : number -> number -> number) (coords : coordinate)
  : coordinate :=
  let dist := sqrt (add (mul coords.[0] coords.[0]) (mul coords.[1] coords.[1])) in
  if (dist >? Fin 0)%js then
    let angle := div (mul (atan2 coords.[1] coords.[0]) (Fin 180)) PI in
    (dist, if (angle <? Fin 0)%js then add angle (Fin 360) else angle)
  else
    (Fin 0, Fin 0).

End Binary64.

(** * Properties *)

(** ** Arithmetic on finite numbers *)

Lemma div_fin (a b : R) : b <> 0 -> (Fin a / Fin b)%js = Fin (a / b).
Proof.
  intros Hb. unfold div. destruct (Req_dec_T b 0); [contradiction | reflexivity].
Qed.


Lemma sqrt_fin (r : R) : 0 <= r -> Math.sqrt (Fin r) = Fin (sqrt r).
Proof.
  intros Hr. unfold Math.sqrt. destruct (Rlt_dec r 0); [lra | reflexivity].
Qed.

Lemma pow_fin_pos (b e : R) :
  0 < b -> e <> 0 -> Math.pow (Fin b) (Fin e) = Fin (Rpower b e).
Proof.
  intros Hb He. unfold Math.pow.
  destruct (Req_dec_T e 0); [contradiction |].
  destruct (Rlt_dec 0 b); [reflexivity | contradiction].
Qed.

Lemma pow_fin_2 (b : R) : Math.pow (Fin b) (Fin 2) = Fin (b * b).
Proof.
  unfold Math.pow.
  destruct (Req_dec_T 2 0); [lra |].
  destruct (Rlt_dec 0 b) as [Hb | Hb].
  - f_equal. change 2 with (INR 2). rewrite Rpower_pow by assumption. simpl. ring.
  - destruct (Req_dec_T b 0) as [-> | Hb0].
    + destruct (Rlt_dec 0 2); [f_equal; ring | lra].
    + unfold Math.is_integer. rewrite (ZfloorZ 2).
      destruct (Req_dec_T 2 2) as [_ | H]; [| now elim H].
      f_equal. simpl. ring.
Qed.


Lemma Rpower_3_2 (x : R) : 0 < x -> Rpower x 1.5 = x * sqrt x.
Proof.
  intros Hx. replace 1.5 with (1 + / 2) by lra.
  rewrite Rpower_plus, Rpower_1, Rpower_sqrt by assumption. reflexivity.
Qed.

Lemma mul_one_r (x : number) : (x * Fin 1)%js = x.
Proof.
  destruct x; simpl; unfold scale_inf;
    try (destruct (Req_dec_T 1 0); [lra |]; destruct (Rlt_dec 0 1); [| lra]);
    try reflexivity.
  f_equal. ring.
Qed.

Lemma mul_minus_one_r (x : number) : (x * Fin (-1))%js = (- x)%js.
Proof.
  destruct x; simpl; unfold scale_inf;
    try (destruct (Req_dec_T (-1) 0); [lra |]; destruct (Rlt_dec 0 (-1)); [lra |]);
    try reflexivity.
  f_equal. ring.
Qed.

(** ** The cached coefficients *)

Lemma x_at_pos (e2 lat0 : R) : e2 < 1 -> 0 < x_at e2 lat0.
Proof.
  intros He. unfold x_at.
  pose proof (SIN_bound (lat0 * (PI / 180))) as [Hl Hu].
  set (s := sin (lat0 * (PI / 180))) in *.
  assert (Hs : 0 <= s * s <= 1) by nra.
  set (t := s * s) in *.
  destruct (Rle_dec e2 0); nra.
Qed.

Lemma Rpower_pos (x y : R) : 0 < Rpower x y.
Proof. unfold Rpower. apply exp_pos. Qed.

Lemma precalculate_finite {O : Type} (origin : O) (lat0 : R) (angle : number)
    (el : EllipsoidModel) (type : string) (a e2 : R) :
  semiMajorAxis el = Fin a ->
  eccentricitySquared el = Fin e2 ->
  e2 < 1 ->
  _precalculate origin (Fin lat0) angle el type =
  {| _origin := origin;
     _angle := angle;
     _ellipsoid := el;
     _type := type;
     _piOver180 := Fin (PI / 180);
     _r1 := Fin (r1_at a e2 lat0);
     _r2OverCosOriginLatInRadians := Fin (r2_at a e2 lat0);
     _yMul := if String.eqb type "neu" then Fin 1 else Fin (-1) |}.
Proof.
  intros Ha He Hlt. unfold _precalculate. rewrite Ha, He.
  unfold Math.PI. rewrite (div_fin PI 180) by lra.
  cbn [mul Math.sin Math.cos]. rewrite pow_fin_2.
  cbn [mul sub add neg].
  replace (1 + - (e2 * (sin (lat0 * (PI / 180)) * sin (lat0 * (PI / 180)))))
    with (x_at e2 lat0) by (unfold x_at; ring).
  pose proof (x_at_pos e2 lat0 Hlt) as Hx.
  rewrite pow_fin_pos by lra.
  rewrite sqrt_fin by lra.
  rewrite !div_fin.
  - cbn [mul]. unfold r1_at, r2_at.
    replace (1 + - e2) with (1 - e2) by ring. reflexivity.
  - apply Rgt_not_eq, sqrt_lt_R0, Hx.
  - apply Rgt_not_eq, Rpower_pos.
Qed.

Lemma constructor_valid_type (origin : coordinate) (angle : number)
    (type : string) (el : EllipsoidModel) :
  valid_type type ->
  constructor origin angle type el =
  Normal (_precalculate origin origin.[1] (angle * Math.PI / Fin 180)%js el type).
Proof.
  intros [-> | ->]; reflexivity.
Qed.

Lemma constructor_invalid_type (origin : coordinate) (angle : number)
    (type : string) (el : EllipsoidModel) :
  ~ valid_type type ->
  constructor origin angle type el =
  Throw ("unknown coordinate system type: " ++ type).
Proof.
  intros Hn. unfold constructor.
  destruct (String.eqb_spec type "neu") as [-> | _].
  - elim Hn. now left.
  - destruct (String.eqb_spec type "nwu") as [-> | _].
    + elim Hn. now right.
    + reflexivity.
Qed.

Lemma valid_type_dec (type : string) : {valid_type type} + {~ valid_type type}.
Proof.
  destruct (string_dec type "neu") as [-> | H1]; [left; now left |].
  destruct (string_dec type "nwu") as [-> | H2]; [left; now right |].
  right. intros [H | H]; contradiction.
Qed.

(** The coordinate system built for a finite origin and angle on a
    physically valid ellipsoid: every cached field is a finite number. *)
Lemma constructor_finite (lon0 lat0 ang : R) (type : string)
    (el : EllipsoidModel) (a e2 : R) :
  valid_type type ->
  semiMajorAxis el = Fin a ->
  eccentricitySquared el = Fin e2 ->
  e2 < 1 ->
  constructor (Fin lon0, Fin lat0) (Fin ang) type el =
  Normal
    {| _origin := (Fin lon0, Fin lat0);
       _angle := Fin (ang * PI / 180);
       _ellipsoid := el;
       _type := type;
       _piOver180 := Fin (PI / 180);
       _r1 := Fin (r1_at a e2 lat0);
       _r2OverCosOriginLatInRadians := Fin (r2_at a e2 lat0);
       _yMul := if String.eqb type "neu" then Fin 1 else Fin (-1) |}.
Proof.
  intros Ht Ha He Hlt.
  rewrite constructor_valid_type by assumption.
  cbn [fst snd]. rewrite (precalculate_finite _ _ _ _ _ a e2) by assumption.
  unfold Math.PI. cbn [mul]. rewrite div_fin by lra. reflexivity.
Qed.

(** ** The two conversions on finite numbers *)

Ltac use_finite_fields H :=
  destruct H as (?Ho & ?Ha & ?Hk & ?H1 & ?H2 & ?Hm);
  match goal with cs : FlatEarthCoordinateSystem coordinate |- _ =>
    destruct cs; cbn [_origin _angle _piOver180 _r1
                      _r2OverCosOriginLatInRadians _yMul] in *; subst
  end.

Ltac js_eval :=
  cbn [fst snd mul sub add neg Math.cos Math.sin _origin _angle _piOver180
       _r1 _r2OverCosOriginLatInRadians _yMul].

Lemma fromLonLat_finite (cs : FlatEarthCoordinateSystem coordinate)
    (lon0 lat0 theta k R1 R2 m lon lat : R) :
  finite_fields cs lon0 lat0 theta k R1 R2 m ->
  fromLonLat cs (Fin lon, Fin lat) =
  (Fin ((lat - lat0) * k * R1 * cos theta + (lon - lon0) * k * R2 * sin theta),
   Fin (((lon - lon0) * k * R2 * cos theta - (lat - lat0) * k * R1 * sin theta) * m)).
Proof.
  intros H. use_finite_fields H.
  unfold fromLonLat, Coordinate_rotate. js_eval.
  rewrite cos_neg, sin_neg. f_equal; f_equal; ring.
Qed.

Lemma toLonLat_finite (cs : FlatEarthCoordinateSystem coordinate)
    (lon0 lat0 theta k R1 R2 m x y : R) :
  finite_fields cs lon0 lat0 theta k R1 R2 m ->
  k <> 0 -> R1 <> 0 -> R2 <> 0 ->
  toLonLat cs (Fin x, Fin y) =
  (Fin ((y * m * cos theta + x * sin theta) / R2 / k + lon0),
   Fin ((x * cos theta - y * m * sin theta) / R1 / k + lat0)).
Proof.
  intros H Hk HR1 HR2. use_finite_fields H.
  unfold toLonLat, Coordinate_rotate. js_eval.
  rewrite !div_fin by assumption. js_eval. f_equal; f_equal; f_equal; f_equal; f_equal; ring.
Qed.

Lemma roundtrip_lonlat_finite (cs : FlatEarthCoordinateSystem coordinate)
    (lon0 lat0 theta k R1 R2 m lon lat : R) :
  finite_fields cs lon0 lat0 theta k R1 R2 m ->
  k <> 0 -> R1 <> 0 -> R2 <> 0 -> m * m = 1 ->
  toLonLat cs (fromLonLat cs (Fin lon, Fin lat)) = (Fin lon, Fin lat).
Proof.
  intros H Hk HR1 HR2 Hm.
  rewrite (fromLonLat_finite _ _ _ _ _ _ _ _ _ _ H).
  rewrite (toLonLat_finite _ _ _ _ _ _ _ _ _ _ H) by assumption.
  pose proof (sin2_cos2 theta) as Hsc. unfold Rsqr in Hsc.
  set (c := cos theta) in *. set (s := sin theta) in *.
  set (n := (lat - lat0) * k * R1). set (e := (lon - lon0) * k * R2).
  replace ((e * c - n * s) * m * m * c + (n * c + e * s) * s)
    with (e * (s * s + c * c) + (m * m - 1) * ((e * c - n * s) * c)) by ring.
  replace ((n * c + e * s) * c - (e * c - n * s) * m * m * s)
    with (n * (s * s + c * c) - (m * m - 1) * ((e * c - n * s) * s)) by ring.
  rewrite Hsc, Hm. unfold n, e. f_equal; f_equal; field; auto.
Qed.

Lemma roundtrip_planar_finite (cs : FlatEarthCoordinateSystem coordinate)
    (lon0 lat0 theta k R1 R2 m x y : R) :
  finite_fields cs lon0 lat0 theta k R1 R2 m ->
  k <> 0 -> R1 <> 0 -> R2 <> 0 -> m * m = 1 ->
  fromLonLat cs (toLonLat cs (Fin x, Fin y)) = (Fin x, Fin y).
Proof.
  intros H Hk HR1 HR2 Hm.
  rewrite (toLonLat_finite _ _ _ _ _ _ _ _ _ _ H) by assumption.
  rewrite (fromLonLat_finite _ _ _ _ _ _ _ _ _ _ H).
  pose proof (sin2_cos2 theta) as Hsc. unfold Rsqr in Hsc.
  set (c := cos theta) in *. set (s := sin theta) in *.
  replace (((x * c - y * m * s) / R1 / k + lat0 - lat0) * k * R1)
    with (x * c - y * m * s) by (field; auto).
  replace (((y * m * c + x * s) / R2 / k + lon0 - lon0) * k * R2)
    with (y * m * c + x * s) by (field; auto).
  f_equal; f_equal.
  - replace ((x * c - y * m * s) * c + (y * m * c + x * s) * s)
      with (x * (s * s + c * c)) by ring.
    rewrite Hsc. ring.
  - replace (((y * m * c + x * s) * c - (x * c - y * m * s) * s) * m)
      with (y * (m * m) * (s * s + c * c)) by ring.
    rewrite Hsc, Hm. ring.
Qed.

(** ** Ellipsoid models *)

Lemma makeEllipsoidModel_finite (a i : R) :
  i <> 0 ->
  makeEllipsoidModel (Fin a) (Fin i) =
  {| inverseFlattening := Fin i;
     semiMajorAxis := Fin a;
     flattening := Fin (1 / i);
     eccentricitySquared := Fin (1 / i * (2 - 1 / i));
     eccentricity := Math.sqrt (Fin (1 / i * (2 - 1 / i)));
     semiMinorAxis := Fin (a * (1 - 1 / i));
     meanRadius := Fin ((a * (1 - 1 / i) + a * 2) / 3) |}.
Proof.
  intros Hi. unfold makeEllipsoidModel.
  rewrite (div_fin 1 i) by assumption. js_eval.
  rewrite div_fin by lra. reflexivity.
Qed.

Lemma makeEllipsoidModel_sphere (a : R) :
  makeEllipsoidModel (Fin a) PInf =
  {| inverseFlattening := PInf;
     semiMajorAxis := Fin a;
     flattening := Fin 0;
     eccentricitySquared := Fin (0 * (2 - 0));
     eccentricity := Math.sqrt (Fin (0 * (2 - 0)));
     semiMinorAxis := Fin (a * (1 - 0));
     meanRadius := Fin ((a * (1 - 0) + a * 2) / 3) |}.
Proof.
  unfold makeEllipsoidModel. cbn [div]. js_eval.
  rewrite div_fin by lra. reflexivity.
Qed.

Lemma WGS84_fields :
  semiMajorAxis WGS84 = Fin 6378137 /\ eccentricitySquared WGS84 = Fin WGS84_e2.
Proof.
  unfold WGS84. rewrite makeEllipsoidModel_finite by lra. split; reflexivity.
Qed.

Lemma WGS84_e2_bounds : 0.00669437 < WGS84_e2 < 0.00669439.
Proof. unfold WGS84_e2. lra. Qed.

Lemma WGS84_physically_valid : physically_valid WGS84.
Proof.
  destruct WGS84_fields as [Ha He]. pose proof WGS84_e2_bounds.
  exists 6378137, WGS84_e2. repeat split; try assumption; lra.
Qed.

(** C5: for a positive semi-major axis and a positive or infinite inverse
    flattening, the derived fields of the model the factory returns are
    [flattening = 1 / inverseFlattening],
    [eccentricitySquared = flattening * (2 - flattening)],
    [eccentricity = sqrt eccentricitySquared],
    [semiMinorAxis = semiMajorAxis * (1 - flattening)] and
    [meanRadius = (semiMinorAxis + 2 * semiMajorAxis) / 3], all of them
    finite, and [WGS84] is the factory applied to 6378137 and
    298.257223563. *)
Theorem makeEllipsoidModel_derived_fields (a : R) (invF : number) :
  0 < a ->
  (invF = PInf \/ exists i : R, invF = Fin i /\ 0 < i) ->
  let m := makeEllipsoidModel (Fin a) invF in
  let f := match invF with Fin i => 1 / i | _ => 0 end in
  inverseFlattening m = invF
  /\ semiMajorAxis m = Fin a
  /\ flattening m = (Fin 1 / invF)%js
  /\ flattening m = Fin f
  /\ eccentricitySquared m = Fin (f * (2 - f))
  /\ eccentricity m = Math.sqrt (eccentricitySquared m)
  /\ (0 <= f <= 2 -> eccentricity m = Fin (sqrt (f * (2 - f))))
  /\ semiMinorAxis m = Fin (a * (1 - f))
  /\ meanRadius m = Fin ((a * (1 - f) + 2 * a) / 3)
  /\ WGS84 = makeEllipsoidModel (Fin 6378137) (Fin 298.257223563).
Proof.
  intros Ha [-> | (i & -> & Hi)]; cbv zeta.
  - rewrite makeEllipsoidModel_sphere.
    cbn [inverseFlattening semiMajorAxis flattening eccentricitySquared
         eccentricity semiMinorAxis meanRadius].
    repeat split; try reflexivity.
    + intros _. apply sqrt_fin. lra.
    + f_equal. lra.
  - rewrite makeEllipsoidModel_finite by lra.
    cbn [inverseFlattening semiMajorAxis flattening eccentricitySquared
         eccentricity semiMinorAxis meanRadius].
    repeat split; try reflexivity.
    + symmetry. apply div_fin. lra.
    + intros Hf. apply sqrt_fin. nra.
    + f_equal. lra.
Qed.

Lemma makeEllipsoidModel_derived_fields_witness :
  flattening (makeEllipsoidModel (Fin 6378137) (Fin 298.257223563))
  = Fin (1 / 298.257223563).
Proof.
  assert (H1 : 0 < 6378137) by lra.
  assert (H2 : Fin 298.257223563 = PInf
               \/ exists i : R, Fin 298.257223563 = Fin i /\ 0 < i).
  { right. exists 298.257223563. split; [reflexivity | lra]. }
  exact (proj1 (proj2 (proj2 (proj2
    (makeEllipsoidModel_derived_fields 6378137 (Fin 298.257223563) H1 H2))))).
Defined.

(** ** Round trips *)

Lemma piOver180_pos : 0 < PI / 180.
Proof. pose proof PI_RGT_0. lra. Qed.

Lemma r1_at_pos (a e2 lat0 : R) : 0 < a -> e2 < 1 -> 0 < r1_at a e2 lat0.
Proof.
  intros Ha He. unfold r1_at.
  apply Rdiv_lt_0_compat; [nra | apply Rpower_pos].
Qed.

Lemma cos_origin_pos (lat0 : R) : Rabs lat0 < 90 -> 0 < cos (lat0 * (PI / 180)).
Proof.
  intros H. apply Rabs_def2 in H. destruct H as [Hu Hl].
  pose proof PI_RGT_0.
  apply cos_gt_0; nra.
Qed.

Lemma r2_at_pos (a e2 lat0 : R) :
  0 < a -> e2 < 1 -> Rabs lat0 < 90 -> 0 < r2_at a e2 lat0.
Proof.
  intros Ha He Hl. unfold r2_at.
  apply Rmult_lt_0_compat; [| apply cos_origin_pos, Hl].
  apply Rdiv_lt_0_compat; [assumption |].
  apply sqrt_lt_R0, x_at_pos, He.
Qed.

Lemma yMul_finite (type : string) :
  exists m : R,
    (if String.eqb type "neu" then Fin 1 else Fin (-1)) = Fin m /\ m * m = 1.
Proof.
  destruct (String.eqb type "neu"); eexists; split; try reflexivity; ring.
Qed.

(** The instance the constructor returns on a well-formed configuration,
    with its fields and the facts both round trips need. *)
Lemma constructor_well_formed (lon0 lat0 ang : R) (type : string)
    (el : EllipsoidModel) :
  valid_type type -> Rabs lat0 < 90 -> physically_valid el ->
  exists (cs : FlatEarthCoordinateSystem coordinate) (R1 R2 m : R),
    constructor (Fin lon0, Fin lat0) (Fin ang) type el = Normal cs
    /\ finite_fields cs lon0 lat0 (ang * PI / 180) (PI / 180) R1 R2 m
    /\ R1 <> 0 /\ R2 <> 0 /\ m * m = 1.
Proof.
  intros Ht Hl (a & e2 & Ha & He & Hpos & Hlo & Hhi).
  destruct (yMul_finite type) as (m & Hm & Hmm).
  eexists _, (r1_at a e2 lat0), (r2_at a e2 lat0), m. split.
  - apply (constructor_finite lon0 lat0 ang type el a e2); assumption.
  - split.
    + unfold finite_fields. cbn. repeat split; try reflexivity. exact Hm.
    + repeat split.
      * apply Rgt_not_eq, r1_at_pos; assumption.
      * apply Rgt_not_eq, r2_at_pos; assumption.
      * exact Hmm.
Qed.

(** C1: for a coordinate system built with convention ['neu'] or ['nwu'],
    an origin whose latitude is strictly between -90 and 90 degrees, any
    angle and a physically valid ellipsoid, [toLonLat (fromLonLat p)] is
    [p] for every longitude-latitude pair [p], exactly over the reals. *)
Theorem toLonLat_fromLonLat (lon0 lat0 ang : R) (type : string)
    (el : EllipsoidModel) :
  valid_type type -> Rabs lat0 < 90 -> physically_valid el ->
  exists cs : FlatEarthCoordinateSystem coordinate,
    constructor (Fin lon0, Fin lat0) (Fin ang) type el = Normal cs
    /\ forall lon lat : R,
         toLonLat cs (fromLonLat cs (Fin lon, Fin lat)) = (Fin lon, Fin lat).
Proof.
  intros Ht Hl Hel.
  destruct (constructor_well_formed lon0 lat0 ang type el Ht Hl Hel)
    as (cs & R1 & R2 & m & Hc & Hf & H1 & H2 & Hm).
  exists cs. split; [exact Hc |].
  intros lon lat.
  apply (roundtrip_lonlat_finite cs _ _ _ _ _ _ _ lon lat Hf); try assumption.
  apply Rgt_not_eq, piOver180_pos.
Qed.

Lemma Rabs_47_lt_90 : Rabs 47 < 90.
Proof. apply Rabs_def1; lra. Qed.

Lemma toLonLat_fromLonLat_witness :
  exists cs : FlatEarthCoordinateSystem coordinate,
    constructor (Fin 19, Fin 47) (Fin 30) "nwu" WGS84 = Normal cs
    /\ forall lon lat : R,
         toLonLat cs (fromLonLat cs (Fin lon, Fin lat)) = (Fin lon, Fin lat).
Proof.
  apply (toLonLat_fromLonLat 19 47 30 "nwu" WGS84).
  - right. reflexivity.
  - exact Rabs_47_lt_90.
  - exact WGS84_physically_valid.
Defined.

(** C9: under the same conditions the other round trip holds as well:
    [fromLonLat (toLonLat [x, y])] is [[x, y]] for every planar pair. *)
Theorem fromLonLat_toLonLat (lon0 lat0 ang : R) (type : string)
    (el : EllipsoidModel) :
  valid_type type -> Rabs lat0 < 90 -> physically_valid el ->
  exists cs : FlatEarthCoordinateSystem coordinate,
    constructor (Fin lon0, Fin lat0) (Fin ang) type el = Normal cs
    /\ forall x y : R,
         fromLonLat cs (toLonLat cs (Fin x, Fin y)) = (Fin x, Fin y).
Proof.
  intros Ht Hl Hel.
  destruct (constructor_well_formed lon0 lat0 ang type el Ht Hl Hel)
    as (cs & R1 & R2 & m & Hc & Hf & H1 & H2 & Hm).
  exists cs. split; [exact Hc |].
  intros x y.
  apply (roundtrip_planar_finite cs _ _ _ _ _ _ _ x y Hf); try assumption.
  apply Rgt_not_eq, piOver180_pos.
Qed.

Lemma fromLonLat_toLonLat_witness :
  exists cs : FlatEarthCoordinateSystem coordinate,
    constructor (Fin 19, Fin 47) (Fin 30) "neu" WGS84 = Normal cs
    /\ forall x y : R,
         fromLonLat cs (toLonLat cs (Fin x, Fin y)) = (Fin x, Fin y).
Proof.
  apply (fromLonLat_toLonLat 19 47 30 "neu" WGS84).
  - left. reflexivity.
  - exact Rabs_47_lt_90.
  - exact WGS84_physically_valid.
Defined.

(** ** The origin *)



Lemma mul_nan_r (x : number) : (x * NaN)%js = NaN.
Proof. destruct x; reflexivity. Qed.

Lemma mul_nan_l (x : number) : (NaN * x)%js = NaN.
Proof. destruct x; reflexivity. Qed.



Lemma constructor_fields (origin : coordinate) (ang : R) (type : string)
    (el : EllipsoidModel) (cs : FlatEarthCoordinateSystem coordinate) :
  constructor origin (Fin ang) type el = Normal cs ->
  valid_type type
  /\ _origin cs = origin
  /\ _angle cs = Fin (ang * PI / 180)
  /\ _piOver180 cs = Fin (PI / 180)
  /\ _yMul cs = (if String.eqb type "neu" then Fin 1 else Fin (-1)).
Proof.
  intros H. destruct (valid_type_dec type) as [Ht | Ht].
  - rewrite constructor_valid_type in H by assumption.
    assert (E : cs = _precalculate origin origin.[1]
                      (Fin ang * Math.PI / Fin 180)%js el type) by congruence.
    rewrite E. clear H E. split; [assumption |].
    unfold _precalculate, Math.PI. cbn [mul]. rewrite !div_fin by lra.
    js_eval. repeat split; reflexivity.
  - rewrite constructor_invalid_type in H by assumption. discriminate.
Qed.





(** The origin and the angle have to be finite numbers as well: with an
    infinite angle the rotation has no cosine, and the origin is sent to
    [(NaN, NaN)] although both scale factors are finite. *)
Lemma fromLonLat_not_finite_angle (cs : FlatEarthCoordinateSystem coordinate)
    (p : coordinate) :
  ~ is_finite (_angle cs) -> fromLonLat cs p = (NaN, NaN).
Proof.
  intros H. unfold fromLonLat, Coordinate_rotate.
  destruct (_angle cs) as [t | | |]; cbn [is_finite] in H; [now elim H | | |];
    cbn [neg Math.cos Math.sin fst snd];
    rewrite !mul_nan_r; cbn [sub add neg]; rewrite mul_nan_l; reflexivity.
Qed.

Lemma fromLonLat_origin_infinite_angle :
  exists cs : FlatEarthCoordinateSystem coordinate,
    constructor (Fin 19, Fin 47) PInf "neu" WGS84 = Normal cs
    /\ is_finite (_r1 cs)
    /\ is_finite (_r2OverCosOriginLatInRadians cs)
    /\ fromLonLat cs (Fin 19, Fin 47) = (NaN, NaN)
    /\ fromLonLat cs (Fin 19, Fin 47) <> (Fin 0, Fin 0).
Proof.
  destruct WGS84_fields as [Ha He].
  assert (Hlt : WGS84_e2 < 1) by (pose proof WGS84_e2_bounds; lra).
  eexists. split; [reflexivity |]. cbn [fst snd].
  rewrite (precalculate_finite _ _ _ _ _ _ _ Ha He Hlt).
  cbn [_r1 _r2OverCosOriginLatInRadians is_finite].
  split; [exact I |]. split; [exact I |].
  match goal with |- ?l = _ /\ _ => assert (E : l = (NaN, NaN)) end;
    [| rewrite E; split; [reflexivity | discriminate]].
  apply fromLonLat_not_finite_angle. cbn [_angle].
  unfold Math.PI. cbn [mul]. unfold scale_inf.
  pose proof PI_RGT_0 as Hpi.
  destruct (Req_dec_T PI 0); [lra |].
  destruct (Rlt_dec 0 PI); [| lra].
  cbn [div]. destruct (Rlt_dec 180 0); [lra |]. cbn [is_finite]. tauto.
Qed.

(** ** The axis convention *)

Lemma fromLonLat_convention (origin : coordinate) (angle : number)
    (el : EllipsoidModel) (p : coordinate) :
  exists neu nwu : FlatEarthCoordinateSystem coordinate,
    constructor origin angle "neu" el = Normal neu
    /\ constructor origin angle "nwu" el = Normal nwu
    /\ (fromLonLat nwu p).[0] = (fromLonLat neu p).[0]
    /\ (fromLonLat nwu p).[1] = (- (fromLonLat neu p).[1])%js.
Proof.
  do 2 eexists. split; [reflexivity |]. split; [reflexivity |].
  unfold fromLonLat, _precalculate. js_eval.
  change (String.eqb "neu" "neu") with true.
  change (String.eqb "nwu" "neu") with false.
  cbv iota. rewrite mul_one_r, mul_minus_one_r. split; reflexivity.
Qed.

Lemma fromLonLat_at_angle_zero (lon0 lat0 lon lat a e2 : R) (type : string)
    (el : EllipsoidModel) (m : R) :
  valid_type type ->
  semiMajorAxis el = Fin a -> eccentricitySquared el = Fin e2 -> e2 < 1 ->
  (if String.eqb type "neu" then Fin 1 else Fin (-1)) = Fin m ->
  exists cs : FlatEarthCoordinateSystem coordinate,
    constructor (Fin lon0, Fin lat0) (Fin 0) type el = Normal cs
    /\ fromLonLat cs (Fin lon, Fin lat)
       = (Fin ((lat - lat0) * (PI / 180) * r1_at a e2 lat0),
          Fin ((lon - lon0) * (PI / 180) * r2_at a e2 lat0 * m)).
Proof.
  intros Ht Ha He Hlt Hm.
  pose proof (constructor_finite lon0 lat0 0 type el a e2 Ht Ha He Hlt) as Hc.
  eexists. split; [exact Hc |].
  match goal with |- fromLonLat ?c _ = _ => set (cs := c) end.
  assert (Hf : finite_fields cs lon0 lat0 (0 * PI / 180) (PI / 180)
                 (r1_at a e2 lat0) (r2_at a e2 lat0) m)
    by (unfold finite_fields, cs; cbn; repeat split; try reflexivity; exact Hm).
  rewrite (fromLonLat_finite cs _ _ _ _ _ _ _ lon lat Hf).
  replace (0 * PI / 180) with 0 by field. rewrite cos_0, sin_0.
  f_equal; f_equal; ring.
Qed.

(** C8: for a fixed origin and ellipsoid, angle 0 and the same input, the
    second (east-west) component of [fromLonLat] under ['nwu'] is the
    negation of the one under ['neu'] and the first components agree,
    whatever the numbers involved.  On a finite origin and input and an
    ellipsoid with a finite semi-major axis [a] and squared eccentricity
    [e2 < 1] the two second components are the numbers [east] and
    [- east], with [east = (lon - lon0) * (PI / 180) * r2]; for [a > 0]
    and an origin latitude strictly between -90 and 90, [east] is positive
    for a point east of the origin and negative for one west of it, so
    the two conventions give components of opposite sign. *)
Theorem axis_convention_sign :
  (forall (origin : coordinate) (el : EllipsoidModel) (p : coordinate),
     exists neu nwu : FlatEarthCoordinateSystem coordinate,
       constructor origin (Fin 0) "neu" el = Normal neu
       /\ constructor origin (Fin 0) "nwu" el = Normal nwu
       /\ (fromLonLat nwu p).[0] = (fromLonLat neu p).[0]
       /\ (fromLonLat nwu p).[1] = (- (fromLonLat neu p).[1])%js
       /\ forall y : R, (fromLonLat neu p).[1] = Fin y ->
                        (fromLonLat nwu p).[1] = Fin (- y))
  /\ (forall (lon0 lat0 lon lat a e2 : R) (el : EllipsoidModel),
        semiMajorAxis el = Fin a -> eccentricitySquared el = Fin e2 ->
        e2 < 1 ->
        let north := (lat - lat0) * (PI / 180) * r1_at a e2 lat0 in
        let east := (lon - lon0) * (PI / 180) * r2_at a e2 lat0 in
        exists neu nwu : FlatEarthCoordinateSystem coordinate,
          constructor (Fin lon0, Fin lat0) (Fin 0) "neu" el = Normal neu
          /\ constructor (Fin lon0, Fin lat0) (Fin 0) "nwu" el = Normal nwu
          /\ fromLonLat neu (Fin lon, Fin lat) = (Fin north, Fin east)
          /\ fromLonLat nwu (Fin lon, Fin lat) = (Fin north, Fin (- east))
          /\ (0 < a -> Rabs lat0 < 90 ->
              (lon0 < lon -> 0 < east) /\ (lon < lon0 -> east < 0))).
Proof.
  split.
  - intros origin el p.
    destruct (fromLonLat_convention origin (Fin 0) el p)
      as (neu & nwu & H1 & H2 & H3 & H4).
    exists neu, nwu. repeat split; try assumption.
    intros y Hy. rewrite H4, Hy. reflexivity.
  - intros lon0 lat0 lon lat a e2 el Ha He Hlt. cbv zeta.
    destruct (fromLonLat_at_angle_zero lon0 lat0 lon lat a e2 "neu" el 1
                (or_introl eq_refl) Ha He Hlt eq_refl) as (neu & Hc1 & E1).
    destruct (fromLonLat_at_angle_zero lon0 lat0 lon lat a e2 "nwu" el (-1)
                (or_intror eq_refl) Ha He Hlt eq_refl) as (nwu & Hc2 & E2).
    exists neu, nwu. split; [exact Hc1 |]. split; [exact Hc2 |].
    split; [rewrite E1; f_equal; f_equal; ring |].
    split; [rewrite E2; f_equal; f_equal; ring |].
    intros Hpos Hlat.
    pose proof (r2_at_pos a e2 lat0 Hpos Hlt Hlat) as Hr.
    pose proof piOver180_pos as Hk.
    assert (Hkr : 0 < PI / 180 * r2_at a e2 lat0)
      by (apply Rmult_lt_0_compat; assumption).
    split; intros Hl; rewrite Rmult_assoc; nra.
Qed.

Lemma axis_convention_sign_witness :
  exists (neu nwu : FlatEarthCoordinateSystem coordinate) (east : R),
    constructor (Fin 19, Fin 47) (Fin 0) "neu" WGS84 = Normal neu
    /\ constructor (Fin 19, Fin 47) (Fin 0) "nwu" WGS84 = Normal nwu
    /\ (fromLonLat neu (Fin 20, Fin 48)).[1] = Fin east
    /\ (fromLonLat nwu (Fin 20, Fin 48)).[1] = Fin (- east)
    /\ 0 < east.
Proof.
  destruct WGS84_fields as [Ha He].
  assert (Hlt : WGS84_e2 < 1) by (pose proof WGS84_e2_bounds; lra).
  destruct (proj2 axis_convention_sign 19 47 20 48 6378137 WGS84_e2 WGS84
              Ha He Hlt) as (neu & nwu & H1 & H2 & E1 & E2 & Hs).
  assert (Hpos : 0 < 6378137) by lra.
  assert (Hlon : 19 < 20) by lra.
  exists neu, nwu, ((20 - 19) * (PI / 180) * r2_at 6378137 WGS84_e2 47).
  split; [exact H1 |]. split; [exact H2 |].
  split; [rewrite E1; reflexivity |]. split; [rewrite E2; reflexivity |].
  exact (proj1 (Hs Hpos Rabs_47_lt_90) Hlon).
Defined.

(** ** Polar coordinates *)

Lemma Ratan2_range (y x : R) : - PI < Math.Ratan2 y x <= PI.
Proof.
  pose proof PI_RGT_0 as Hpi. pose proof (atan_bound (y / x)) as Hb.
  unfold Math.Ratan2.
  destruct (Rlt_dec 0 x) as [Hx | Hx]; [lra |].
  destruct (Rlt_dec x 0) as [Hx' | Hx'].
  - destruct (Rlt_dec y 0) as [Hy | Hy].
    + assert (0 < y / x).
      { replace (y / x) with ((- y) / (- x)) by (field; lra).
        apply Rdiv_lt_0_compat; lra. }
      pose proof (atan_increasing 0 (y / x) H) as Hi.
      rewrite atan_0 in Hi. lra.
    + assert (Hle : atan (y / x) <= 0).
      { destruct (Req_dec_T y 0) as [-> | Hy0].
        - unfold Rdiv. rewrite Rmult_0_l, atan_0. lra.
        - assert (y / x < 0).
          { replace (y / x) with (- (y / (- x))) by (field; lra).
            assert (0 < y / (- x)) by (apply Rdiv_lt_0_compat; lra). lra. }
          pose proof (atan_increasing (y / x) 0 H) as Hi.
          rewrite atan_0 in Hi. lra. }
      lra.
  - destruct (Rlt_dec 0 y); [lra |].
    destruct (Rlt_dec y 0); lra.
Qed.

Lemma sqrt_sum_squares (x y : R) :
  x <> 0 -> sqrt (x * x + y * y) = Rabs x * sqrt (1 + (y / x)²).
Proof.
  intros Hx.
  replace (x * x + y * y) with (Rsqr x * (1 + (y / x)²))
    by (unfold Rsqr; field; assumption).
  rewrite sqrt_mult.
  - rewrite sqrt_Rsqr_abs. reflexivity.
  - apply Rle_0_sqr.
  - pose proof (Rle_0_sqr (y / x)). lra.
Qed.

(** The modelled [atan2] is the polar angle: it recovers the point from
    its distance to the origin. *)
Lemma Ratan2_polar (x y : R) :
  0 < sqrt (x * x + y * y) ->
  x = sqrt (x * x + y * y) * cos (Math.Ratan2 y x)
  /\ y = sqrt (x * x + y * y) * sin (Math.Ratan2 y x).
Proof.
  intros Hd. unfold Math.Ratan2.
  assert (Hs : forall t : R, 0 < sqrt (1 + t²)).
  { intros t. apply sqrt_lt_R0. pose proof (Rle_0_sqr t). lra. }
  destruct (Rlt_dec 0 x) as [Hx | Hx].
  - rewrite sqrt_sum_squares by lra. rewrite Rabs_pos_eq by lra.
    rewrite cos_atan, sin_atan. pose proof (Hs (y / x)).
    split; field; lra.
  - destruct (Rlt_dec x 0) as [Hx' | Hx'].
    + rewrite sqrt_sum_squares by lra. rewrite Rabs_left by lra.
      pose proof (Hs (y / x)).
      destruct (Rlt_dec y 0).
      * unfold Rminus. rewrite <- (cos_period _ 1), <- (sin_period _ 1).
        replace (atan (y / x) + - PI + 2 * INR 1 * PI)
          with (atan (y / x) + PI) by (simpl; ring).
        rewrite neg_cos, neg_sin, cos_atan, sin_atan. split; field; lra.
      * rewrite neg_cos, neg_sin, cos_atan, sin_atan. split; field; lra.
    + assert (x = 0) by lra. subst x.
      replace (0 * 0 + y * y) with (y * y) in * by ring.
      destruct (Rlt_dec 0 y) as [Hy | Hy].
      * rewrite sqrt_square by lra. rewrite cos_PI2, sin_PI2. lra.
      * destruct (Rlt_dec y 0) as [Hy' | Hy'].
        -- replace (y * y) with ((- y) * (- y)) by ring.
           rewrite sqrt_square by lra.
           rewrite cos_neg, sin_neg, cos_PI2, sin_PI2. lra.
        -- assert (y = 0) by lra. subst y.
           rewrite Rmult_0_l, sqrt_0 in Hd. lra.
Qed.

Lemma toPolar_finite (x y : R) :
  toPolar (Fin x, Fin y) =
  if Rlt_dec 0 (sqrt (x * x + y * y)) then
    (Fin (sqrt (x * x + y * y)),
     Fin (if Rlt_dec (Math.Ratan2 y x * 180 / PI) 0
          then Math.Ratan2 y x * 180 / PI + 360
          else Math.Ratan2 y x * 180 / PI))
  else (Fin 0, Fin 0).
Proof.
  unfold toPolar. js_eval.
  rewrite sqrt_fin by nra.
  unfold gtb, ltb at 1.
  destruct (Rlt_dec 0 (sqrt (x * x + y * y))); [| reflexivity].
  unfold Math.atan2, Math.PI. js_eval.
  rewrite div_fin by (apply Rgt_not_eq, PI_RGT_0).
  unfold ltb.
  destruct (Rlt_dec (Math.Ratan2 y x * 180 / PI) 0); reflexivity.
Qed.

Lemma degrees_range (r : R) :
  - PI < r <= PI -> -180 < r * 180 / PI <= 180.
Proof.
  intros [Hl Hu]. pose proof PI_RGT_0 as Hpi.
  assert (E : r * 180 / PI * PI = r * 180) by (field; lra).
  set (a := r * 180 / PI) in *. split.
  - apply (Rmult_lt_reg_r PI); [assumption |]. rewrite E. lra.
  - apply (Rmult_le_reg_r PI); [assumption |]. rewrite E. lra.
Qed.

Lemma toPolar_values (x y : R) :
  exists d theta : R,
    toPolar (Fin x, Fin y) = (Fin d, Fin theta)
    /\ d = sqrt (x * x + y * y)
    /\ 0 <= theta < 360
    /\ (d = 0 -> theta = 0)
    /\ (0 < d -> theta = Math.Ratan2 y x * 180 / PI
                 \/ theta = Math.Ratan2 y x * 180 / PI + 360)
    /\ x = d * cos (theta * (PI / 180))
    /\ y = d * sin (theta * (PI / 180)).
Proof.
  rewrite toPolar_finite.
  pose proof PI_RGT_0 as Hpi.
  pose proof (degrees_range _ (Ratan2_range y x)) as Hr.
  destruct (Rlt_dec 0 (sqrt (x * x + y * y))) as [Hd | Hd].
  - destruct (Ratan2_polar x y Hd) as [Px Py].
    set (a := Math.Ratan2 y x * 180 / PI) in *.
    destruct (Rlt_dec a 0) as [Ha | Ha].
    + exists (sqrt (x * x + y * y)), (a + 360).
      split; [reflexivity |]. split; [reflexivity |].
      split; [lra |]. split; [lra |]. split; [now right |].
      replace ((a + 360) * (PI / 180))
        with (Math.Ratan2 y x + 2 * INR 1 * PI)
        by (unfold a; simpl; field; lra).
      rewrite cos_period, sin_period. split; assumption.
    + exists (sqrt (x * x + y * y)), a.
      split; [reflexivity |]. split; [reflexivity |].
      split; [lra |]. split; [lra |]. split; [now left |].
      replace (a * (PI / 180)) with (Math.Ratan2 y x)
        by (unfold a; field; lra).
      split; assumption.
  - assert (H0 : sqrt (x * x + y * y) = 0) by (pose proof (sqrt_pos (x * x + y * y)); lra).
    assert (Hxy : x * x + y * y = 0) by (apply sqrt_eq_0; [nra | assumption]).
    assert (x = 0) by nra. assert (y = 0) by nra. subst x y.
    exists 0, 0. split; [reflexivity |]. split; [now rewrite H0 |].
    split; [lra |]. split; [reflexivity |]. split; [lra |]. split; ring.
Qed.

Lemma toPolar_at (x y d a : R) :
  sqrt (x * x + y * y) = d -> 0 < d ->
  Math.Ratan2 y x * 180 / PI = a -> 0 <= a ->
  toPolar (Fin x, Fin y) = (Fin d, Fin a).
Proof.
  intros Hd Hpos Ha Hge. rewrite toPolar_finite, Hd, Ha.
  destruct (Rlt_dec 0 d); [| contradiction].
  destruct (Rlt_dec a 0); [lra | reflexivity].
Qed.

(** X23: over exact real arithmetic (no rounding, underflow or overflow),
    for every pair [(x, y)] of finite numbers [toPolar] returns the
    distance [sqrt (x^2 + y^2)] and the [atan2] angle in degrees brought
    into [0, 360), and [(0, 0)] when the distance is zero; the pair it
    returns is the polar form of [(x, y)].  In particular
    [toPolar [0,0] = [0,0]], [toPolar [1,0] = [1,0]],
    [toPolar [0,1] = [1,90]] and [toPolar [-1,0] = [1,180]]. *)
Theorem toPolar_spec :
  (forall x y : R,
     exists d theta : R,
       toPolar (Fin x, Fin y) = (Fin d, Fin theta)
       /\ d = sqrt (x * x + y * y)
       /\ 0 <= theta < 360
       /\ (d = 0 -> theta = 0)
       /\ (0 < d -> theta = Math.Ratan2 y x * 180 / PI
                    \/ theta = Math.Ratan2 y x * 180 / PI + 360)
       /\ x = d * cos (theta * (PI / 180))
       /\ y = d * sin (theta * (PI / 180)))
  /\ toPolar (Fin 0, Fin 0) = (Fin 0, Fin 0)
  /\ toPolar (Fin 1, Fin 0) = (Fin 1, Fin 0)
  /\ toPolar (Fin 0, Fin 1) = (Fin 1, Fin 90)
  /\ toPolar (Fin (-1), Fin 0) = (Fin 1, Fin 180).
Proof.
  pose proof PI_RGT_0 as Hpi.
  split; [exact toPolar_values |]. repeat split.
  - rewrite toPolar_finite.
    replace (0 * 0 + 0 * 0) with 0 by ring. rewrite sqrt_0.
    destruct (Rlt_dec 0 0); [lra | reflexivity].
  - apply toPolar_at; try lra.
    + replace (1 * 1 + 0 * 0) with 1 by ring. apply sqrt_1.
    + unfold Math.Ratan2. destruct (Rlt_dec 0 1); [| lra].
      replace (0 / 1) with 0 by field. rewrite atan_0. field. lra.
  - apply toPolar_at; try lra.
    + replace (0 * 0 + 1 * 1) with 1 by ring. apply sqrt_1.
    + unfold Math.Ratan2. destruct (Rlt_dec 0 0); [lra |].
      destruct (Rlt_dec 0 1); [| lra]. field. lra.
  - apply toPolar_at; try lra.
    + replace (-1 * -1 + 0 * 0) with 1 by ring. apply sqrt_1.
    + unfold Math.Ratan2. destruct (Rlt_dec 0 (-1)); [lra |].
      destruct (Rlt_dec (-1) 0); [| lra].
      destruct (Rlt_dec 0 0); [lra |].
      replace (0 / -1) with 0 by field. rewrite atan_0. field. lra.
Qed.

(** ** Angle normalisation *)

Lemma Ztrunc_nonneg (r : R) : 0 <= r -> Ztrunc r = Zfloor r.
Proof.
  intros H. unfold Ztrunc. destruct (Rle_dec 0 r); [reflexivity | contradiction].
Qed.

Lemma Ztrunc_neg (r : R) : r < 0 -> Ztrunc r = Zceil r.
Proof.
  intros H. unfold Ztrunc. destruct (Rle_dec 0 r); [lra | reflexivity].
Qed.

Lemma quotient_nonneg (a b : R) : 0 <= a -> 0 < b -> 0 <= a / b.
Proof.
  intros Ha Hb. unfold Rdiv. apply Rmult_le_pos; [assumption |].
  left. apply Rinv_0_lt_compat, Hb.
Qed.

Lemma Rrem_nonneg (a b : R) : 0 <= a -> 0 < b -> 0 <= Rrem a b < b.
Proof.
  intros Ha Hb. unfold Rrem.
  rewrite Ztrunc_nonneg by (apply quotient_nonneg; assumption).
  pose proof (Zfloor_bound (a / b)) as [Hl Hu].
  set (q := IZR (Zfloor (a / b))) in *.
  assert (E : a = a / b * b) by (field; lra).
  split; nra.
Qed.

Lemma Rrem_neg (a b : R) : a < 0 -> 0 < b -> - b < Rrem a b <= 0.
Proof.
  intros Ha Hb. unfold Rrem.
  rewrite Ztrunc_neg by (apply Rdiv_neg_pos; assumption).
  pose proof (Zceil_bound (a / b)) as [Hl Hu].
  set (q := IZR (Zceil (a / b))) in *.
  assert (E : a = a / b * b) by (field; lra).
  split; nra.
Qed.

Lemma Rrem_congruent (a b : R) : exists k : Z, Rrem a b = a + b * IZR k.
Proof.
  exists (- Ztrunc (a / b))%Z. unfold Rrem. rewrite opp_IZR. ring.
Qed.

(** The remainder is determined by its sign and size. *)
Lemma Rrem_eq (a b r : R) (q : Z) :
  0 < b -> a = b * IZR q + r ->
  (0 <= a /\ 0 <= r < b) \/ (a < 0 /\ - b < r <= 0) ->
  Rrem a b = r.
Proof.
  intros Hb E H. unfold Rrem.
  assert (Eq : a / b = IZR q + r / b) by (rewrite E; field; lra).
  assert (Hr : r / b * b = r) by (field; lra).
  destruct H as [[Ha [Hl Hu]] | [Ha [Hl Hu]]].
  - rewrite Ztrunc_nonneg by (apply quotient_nonneg; assumption).
    rewrite (Zfloor_eq q); [lra |]. rewrite Eq. split; nra.
  - rewrite Ztrunc_neg by (apply Rdiv_neg_pos; assumption).
    rewrite (Zceil_eq q); [lra |]. rewrite Eq. split; nra.
Qed.

(** The angle brought into [0, 360). *)
Lemma double_rem_range (a : R) :
  0 <= Rrem (Rrem a 360 + 360) 360 < 360
  /\ exists k : Z, Rrem (Rrem a 360 + 360) 360 = a + 360 * IZR k.
Proof.
  assert (Hin : 0 <= Rrem a 360 + 360).
  { destruct (Rle_dec 0 a) as [Ha | Ha].
    - pose proof (Rrem_nonneg a 360 Ha). lra.
    - pose proof (Rrem_neg a 360). lra. }
  split.
  - apply Rrem_nonneg; lra.
  - destruct (Rrem_congruent a 360) as [k1 E1].
    destruct (Rrem_congruent (Rrem a 360 + 360) 360) as [k2 E2].
    exists (k1 + 1 + k2)%Z. rewrite E2, E1, !plus_IZR. ring.
Qed.

Lemma nearest_scaled_bound (x : R) (f : nat) :
  IZR (nearest_scaled x f) - / 2 <= x * 10 ^ f < IZR (nearest_scaled x f) + / 2.
Proof.
  unfold nearest_scaled. pose proof (Zfloor_bound (x * 10 ^ f + / 2)). lra.
Qed.

(** [nearest_scaled x f] is an integer nearest to [x * 10^f], and the
    larger of the two when [x * 10^f] lies half-way. *)
Lemma nearest_scaled_nearest (x : R) (f : nat) (z : Z) :
  Rabs (IZR (nearest_scaled x f) - x * 10 ^ f) <= Rabs (IZR z - x * 10 ^ f)
  /\ (Rabs (IZR (nearest_scaled x f) - x * 10 ^ f) = Rabs (IZR z - x * 10 ^ f)
      -> (z <= nearest_scaled x f)%Z).
Proof.
  pose proof (nearest_scaled_bound x f) as [Hl Hu].
  set (n := nearest_scaled x f) in *. set (y := x * 10 ^ f) in *.
  assert (Hn : Rabs (IZR n - y) <= / 2) by (apply Rabs_le; lra).
  destruct (Z_lt_le_dec z n) as [Hz | Hz].
  - assert (IZR z <= IZR n - 1).
    { rewrite <- minus_IZR. apply IZR_le. lia. }
    assert (/ 2 <= Rabs (IZR z - y)).
    { rewrite Rabs_left1 by lra. lra. }
    split; [lra | intros _; lia].
  - destruct (Z.eq_dec z n) as [-> | Hne].
    + split; [lra | intros _; lia].
    + assert (IZR n + 1 <= IZR z).
      { rewrite <- plus_IZR. apply IZR_le. lia. }
      assert (/ 2 < Rabs (IZR z - y)).
      { rewrite Rabs_right by lra. lra. }
      split; [lra | intros E; rewrite E in Hn; lra].
Qed.

Lemma all_upto_spec (k : nat) (P : nat -> bool) :
  all_upto k P = true -> forall i : nat, (i <= k)%nat -> P i = true.
Proof.
  induction k as [| k IH]; cbn [all_upto]; intros H i Hi.
  - assert (i = O) by lia. now subst.
  - apply andb_prop in H. destruct H as [Hk Hr].
    destruct (Nat.eq_dec i (S k)) as [-> | Hne]; [assumption |].
    apply IH; [assumption | lia].
Qed.

(** Every text [toFixed] prints for a value up to 360 reads back as the
    integer it was printed from, over 100. *)
Lemma fixed_digits_readable (n : Z) :
  (0 <= n <= 36000)%Z -> read_fixed (fixed_digits n 2) = Some (n, 2%nat).
Proof.
  intros Hn.
  pose (check := fun q r : nat =>
    match read_fixed (fixed_digits (Z.of_nat q * 100 + Z.of_nat r) 2) with
    | Some (m, 2%nat) => Z.eqb m (Z.of_nat q * 100 + Z.of_nat r)
    | _ => false
    end).
  assert (Hall : all_upto 360 (fun q => all_upto 99 (check q)) = true)
    by (vm_compute; reflexivity).
  assert (Hq : (Z.to_nat (n / 100) <= 360)%nat).
  { assert (n / 100 <= 360)%Z by (apply Z.div_le_upper_bound; lia). lia. }
  assert (Hr : (Z.to_nat (n mod 100) <= 99)%nat).
  { pose proof (Z.mod_pos_bound n 100). lia. }
  pose proof (all_upto_spec _ _ (all_upto_spec _ _ Hall _ Hq) _ Hr) as Hc.
  unfold check in Hc. clear Hall check Hq Hr.
  rewrite !Z2Nat.id in Hc
    by (try apply Z.div_pos; try apply Z.mod_pos_bound; lia).
  replace (n / 100 * 100 + n mod 100)%Z with n in Hc
    by (rewrite (Z.div_mod n 100) at 1; lia).
  destruct (read_fixed (fixed_digits n 2)) as [[m [| [| [| f]]]] |];
    try discriminate Hc.
  apply Z.eqb_eq in Hc. now subst.
Qed.

Section NormalizeAngle.

Variable finite_toString : R -> string.

Lemma toFixed_small (v : R) (f : nat) :
  0 <= v < 10 ^ 21 ->
  toFixed finite_toString (Fin v) f = fixed_digits (nearest_scaled v f) f.
Proof.
  intros [Hl Hu]. unfold toFixed.
  destruct (Rlt_dec v 0); [lra |].
  destruct (Rle_dec (10 ^ 21) v); [lra | reflexivity].
Qed.

Lemma normalizeAngle_finite (a : R) :
  normalizeAngle finite_toString (Fin a) =
  fixed_digits (nearest_scaled (Rrem (Rrem a 360 + 360) 360) 2) 2.
Proof.
  unfold normalizeAngle, rem.
  destruct (Req_dec_T 360 0); [lra |]. cbn [add].
  destruct (Req_dec_T 360 0); [lra |].
  apply toFixed_small.
  destruct (double_rem_range a) as [[Hl Hu] _].
  split; [assumption |].
  apply Rlt_trans with 360; [assumption |].
  apply Rlt_le_trans with (10 ^ 3); [simpl; lra |].
  apply Rle_pow; [lra | lia].
Qed.

Lemma normalizeAngle_at (a v : R) (n : Z) :
  Rrem (Rrem a 360 + 360) 360 = v ->
  IZR n <= v * 100 + / 2 < IZR n + 1 ->
  normalizeAngle finite_toString (Fin a) = fixed_digits n 2.
Proof.
  intros Hv Hn. rewrite normalizeAngle_finite, Hv.
  unfold nearest_scaled. rewrite (Zfloor_eq n); [reflexivity |].
  simpl. lra.
Qed.

End NormalizeAngle.

Lemma Rrem_370 : Rrem 370 360 = 10.
Proof. apply (Rrem_eq _ _ _ 1); lra. Qed.

Lemma Rrem_350 : Rrem 350 360 = 350.
Proof. apply (Rrem_eq _ _ _ 0); lra. Qed.

Lemma Rrem_minus_10 : Rrem (-10) 360 = -10.
Proof. apply (Rrem_eq _ _ _ 0); lra. Qed.

Lemma Rrem_360 : Rrem 360 360 = 0.
Proof. apply (Rrem_eq _ _ _ 1); lra. Qed.

(** X22: over exact real arithmetic (no rounding in [%] and [+]), what
    [normalizeAngle] does for every real angle [a]: it prints, with two
    decimals, the rounding to two decimal places of the value [v] in
    [0, 360) that differs from [a] by a multiple of 360; the text reads
    back as [n / 100] for the integer [n] nearest to [100 * v], which is
    at most 36000.  It prints "10.00" for 370, "350.00" for -10 and "0.00"
    for 360. *)
Theorem normalizeAngle_spec (finite_toString : R -> string) :
  (forall a : R,
     exists (v : R) (n : Z),
       0 <= v < 360
       /\ (exists k : Z, v = a + 360 * IZR k)
       /\ n = nearest_scaled v 2
       /\ IZR n - / 2 <= v * 100 < IZR n + / 2
       /\ (0 <= n <= 36000)%Z
       /\ normalizeAngle finite_toString (Fin a) = fixed_digits n 2
       /\ read_fixed (normalizeAngle finite_toString (Fin a)) = Some (n, 2%nat))
  /\ normalizeAngle finite_toString (Fin 370) = "10.00"
  /\ normalizeAngle finite_toString (Fin (-10)) = "350.00"
  /\ normalizeAngle finite_toString (Fin 360) = "0.00".
Proof.
  split.
  - intros a.
    destruct (double_rem_range a) as [[Hl Hu] Hk].
    set (v := Rrem (Rrem a 360 + 360) 360) in *.
    pose proof (nearest_scaled_bound v 2) as Hb.
    replace (10 ^ 2) with 100 in Hb by (simpl; ring).
    assert (Hn : (0 <= nearest_scaled v 2 <= 36000)%Z).
    { split.
      - assert (H : (-1 < nearest_scaled v 2)%Z) by (apply lt_IZR; lra). lia.
      - assert (H : (nearest_scaled v 2 < 36001)%Z) by (apply lt_IZR; lra). lia. }
    exists v, (nearest_scaled v 2).
    rewrite normalizeAngle_finite. fold v.
    repeat split; try assumption; try lra; try lia.
    apply fixed_digits_readable, Hn.
  - repeat split.
    + rewrite (normalizeAngle_at _ 370 10 1000); [reflexivity | | lra].
      rewrite Rrem_370. replace (10 + 360) with 370 by ring. apply Rrem_370.
    + rewrite (normalizeAngle_at _ (-10) 350 35000); [reflexivity | | lra].
      rewrite Rrem_minus_10. replace (-10 + 360) with 350 by ring.
      apply Rrem_350.
    + rewrite (normalizeAngle_at _ 360 0 0); [reflexivity | | lra].
      rewrite Rrem_360. replace (0 + 360) with 360 by ring. apply Rrem_360.
Qed.

(** C6: [normalizeAngle] is to return the text of a value in [0, 360),
    360 excluded, with two decimals.  The code rounds after it has reduced
    the angle to [0, 360), so from 359.995 on it prints "360.00": for
    359.996 the text it returns stands for 360, not for a value below
    360. *)
Remark normalizeAngle_rounds_up (finite_toString : R -> string) :
  normalizeAngle finite_toString (Fin 359.996) = "360.00"
  /\ read_fixed (normalizeAngle finite_toString (Fin 359.996))
     = Some (36000%Z, 2%nat).
Proof.
  assert (E : normalizeAngle finite_toString (Fin 359.996) = "360.00").
  { rewrite (normalizeAngle_at _ 359.996 359.996 36000); [reflexivity | | lra].
    assert (E : Rrem 359.996 360 = 359.996) by (apply (Rrem_eq _ _ _ 0); lra).
    rewrite E. apply (Rrem_eq _ _ _ 1); lra. }
  rewrite E. split; reflexivity.
Qed.

(** ** The north component and the known value *)

Lemma PI_bounds : 3.1415 < PI < 3.1421.
Proof.
  pose proof (PI_2_3_7_ineq 1) as [Hl Hu].
  unfold sum_f_R0, tg_alt, PI_2_3_7_tg, Ratan_seq in Hl, Hu.
  simpl in Hl, Hu.
  split; lra.
Qed.

Lemma sin_47_square_bounds :
  / 2 <= sin (47 * (PI / 180)) * sin (47 * (PI / 180)) <= 3 / 4.
Proof.
  pose proof PI_RGT_0 as Hpi.
  assert (Hlo : sin (PI / 4) <= sin (47 * (PI / 180)))
    by (apply sin_incr_1; lra).
  assert (Hhi : sin (47 * (PI / 180)) <= sin (PI / 3))
    by (apply sin_incr_1; lra).
  rewrite sin_PI4 in Hlo. rewrite sin_PI3 in Hhi.
  assert (H2 : 0 < sqrt 2) by (apply sqrt_lt_R0; lra).
  assert (H3 : 0 <= sqrt 3) by apply sqrt_pos.
  pose proof (sqrt_sqrt 2 ltac:(lra)) as E2.
  pose proof (sqrt_sqrt 3 ltac:(lra)) as E3.
  assert (Hp : 0 < 1 / sqrt 2) by (apply Rdiv_lt_0_compat; lra).
  assert (Eh : 1 / sqrt 2 * (1 / sqrt 2) = / 2).
  { replace (1 / sqrt 2 * (1 / sqrt 2)) with (1 / (sqrt 2 * sqrt 2))
      by (field; lra).
    rewrite E2. lra. }
  set (s := sin (47 * (PI / 180))) in *.
  set (u := 1 / sqrt 2) in *. set (w := sqrt 3) in *.
  split; nra.
Qed.

Lemma x_47_bounds : 0.994979 < x_at WGS84_e2 47 < 0.996653.
Proof.
  unfold x_at. pose proof sin_47_square_bounds as [Hl Hu].
  pose proof WGS84_e2_bounds as [El Eu].
  set (t := sin (47 * (PI / 180)) * sin (47 * (PI / 180))) in *.
  split; nra.
Qed.

Lemma sqrt_bounds (x lo hi : R) :
  0 <= lo -> 0 <= hi -> lo * lo <= x <= hi * hi -> lo <= sqrt x <= hi.
Proof.
  intros Hlo Hhi [Hl Hu].
  rewrite <- (sqrt_square lo), <- (sqrt_square hi) by assumption.
  split; apply sqrt_le_1; nra.
Qed.

Lemma r1_47_bounds : 6366000 < r1_at 6378137 WGS84_e2 47 < 6385000.
Proof.
  unfold r1_at. pose proof x_47_bounds as [Xl Xu].
  pose proof WGS84_e2_bounds as [El Eu].
  rewrite Rpower_3_2 by lra.
  pose proof (sqrt_bounds (x_at WGS84_e2 47) 0.9974 0.9984) as Hs.
  destruct Hs as [Sl Su]; [lra | lra | split; lra |].
  set (x := x_at WGS84_e2 47) in *. set (q := sqrt x) in *.
  assert (Hd : 0.9923 < x * q < 0.9951) by (split; nra).
  set (d := x * q) in *.
  set (num := 6378137 * (1 - WGS84_e2)).
  assert (Hn : 6335439 < num < 6335440) by (unfold num; split; lra).
  assert (E : num / d * d = num) by (field; lra).
  set (r := num / d) in *.
  split; nra.
Qed.

Lemma fromLonLat_unrotated (cs : FlatEarthCoordinateSystem coordinate)
    (lon0 lat0 theta k R1 R2 m lon lat : R) :
  finite_fields cs lon0 lat0 theta k R1 R2 m ->
  fromLonLat cs (Fin lon, Fin lat) =
  (let result :=
     Coordinate_rotate
       (Fin ((lat - lat0) * k * R1), Fin ((lon - lon0) * k * R2))
       (- _angle cs)%js in
   (result.[0], (result.[1] * _yMul cs)%js)).
Proof.
  intros H. use_finite_fields H. reflexivity.
Qed.

(** C2: [fromLonLat] computes the first (north) entry of the pair it then
    rotates as [(lat - originLat) * (PI / 180) * r1], with
    [r1 = semiMajorAxis * (1 - e2) / x ^ 1.5] and
    [x = 1 - e2 * sin^2 originLat]; at angle 0 this is the first component
    it returns.  On WGS84 with origin (19, 47), angle 0 and convention
    ['neu'], the input (19, 48) gives the first component [r1 * PI / 180],
    which lies between 111000 and 111700. *)
Theorem fromLonLat_north_component :
  (forall (lon0 lat0 ang lon lat : R) (type : string) (el : EllipsoidModel)
          (a e2 : R),
     valid_type type ->
     semiMajorAxis el = Fin a -> eccentricitySquared el = Fin e2 -> e2 < 1 ->
     let x := 1 - e2 * (sin (lat0 * (PI / 180)))² in
     let r1 := a * (1 - e2) / Rpower x 1.5 in
     let north := (lat - lat0) * (PI / 180) * r1 in
     exists cs : FlatEarthCoordinateSystem coordinate,
       constructor (Fin lon0, Fin lat0) (Fin ang) type el = Normal cs
       /\ _r1 cs = Fin r1
       /\ (exists east : R,
             fromLonLat cs (Fin lon, Fin lat) =
             (let result :=
                Coordinate_rotate (Fin north, Fin east) (- _angle cs)%js in
              (result.[0], (result.[1] * _yMul cs)%js)))
       /\ (ang = 0 -> (fromLonLat cs (Fin lon, Fin lat)).[0] = Fin north))
  /\ exists (cs : FlatEarthCoordinateSystem coordinate) (r1 v : R),
       constructor (Fin 19, Fin 47) (Fin 0) "neu" WGS84 = Normal cs
       /\ _r1 cs = Fin r1
       /\ (fromLonLat cs (Fin 19, Fin 48)).[0] = Fin v
       /\ v = r1 * PI / 180
       /\ 111000 <= v <= 111700.
Proof.
  split.
  - intros lon0 lat0 ang lon lat type el a e2 Ht Ha He Hlt. cbv zeta.
    change (1 - e2 * (sin (lat0 * (PI / 180)))²) with (x_at e2 lat0).
    change (a * (1 - e2) / Rpower (x_at e2 lat0) 1.5) with (r1_at a e2 lat0).
    destruct (yMul_finite type) as (m & Hm & _).
    pose proof (constructor_finite lon0 lat0 ang type el a e2 Ht Ha He Hlt)
      as Hc.
    eexists. split; [exact Hc |]. split; [reflexivity |].
    match goal with |- context [fromLonLat ?c _] => set (cs := c) end.
    assert (Hf : finite_fields cs lon0 lat0 (ang * PI / 180) (PI / 180)
                   (r1_at a e2 lat0) (r2_at a e2 lat0) m)
      by (unfold finite_fields, cs; cbn; repeat split; try reflexivity; exact Hm).
    split.
    + exists ((lon - lon0) * (PI / 180) * r2_at a e2 lat0).
      apply (fromLonLat_unrotated cs _ _ _ _ _ _ _ lon lat Hf).
    + intros ->. rewrite (fromLonLat_finite cs _ _ _ _ _ _ _ lon lat Hf).
      cbn [fst]. f_equal.
      replace (0 * PI / 180) with 0 by field.
      rewrite cos_0, sin_0. ring.
  - destruct WGS84_fields as [Ha He].
    assert (Hlt : WGS84_e2 < 1) by (pose proof WGS84_e2_bounds; lra).
    pose proof (constructor_finite 19 47 0 "neu" WGS84 _ _
                  (or_introl eq_refl) Ha He Hlt) as Hc.
    eexists. exists (r1_at 6378137 WGS84_e2 47).
    exists (r1_at 6378137 WGS84_e2 47 * PI / 180).
    split; [exact Hc |]. split; [reflexivity |].
    split; [| split; [reflexivity |]].
    + match goal with |- context [fromLonLat ?c _] => set (cs := c) end.
      assert (Hf : finite_fields cs 19 47 (0 * PI / 180) (PI / 180)
                     (r1_at 6378137 WGS84_e2 47) (r2_at 6378137 WGS84_e2 47) 1)
        by (unfold finite_fields, cs; cbn; repeat split; reflexivity).
      rewrite (fromLonLat_finite cs _ _ _ _ _ _ _ 19 48 Hf).
      cbn [fst]. f_equal.
      replace (0 * PI / 180) with 0 by field.
      rewrite cos_0, sin_0. field.
    + pose proof r1_47_bounds as [Rl Ru]. pose proof PI_bounds as [Pl Pu].
      set (r := r1_at 6378137 WGS84_e2 47) in *.
      split; nra.
Qed.

(** ** Arrays: what the two methods read, allocate and write *)

Module HeapFacts.

Lemma fresh_unused (h : Heap.heap) : h !! fresh (dom h) = None.
Proof. apply not_elem_of_dom, is_fresh. Qed.

Lemma used_not_fresh (h : Heap.heap) (a : Heap.loc) :
  is_Some (h !! a) -> a <> fresh (dom h).
Proof.
  intros [e He] ->. rewrite fresh_unused in He. discriminate.
Qed.

Lemma bind_run {A B : Type} (m : Heap.M A) (k : A -> Heap.M B)
    (h h' : Heap.heap) (a : A) :
  m h = Some (a, h') -> Heap.bind m k h = k a h'.
Proof. intros H. unfold Heap.bind. now rewrite H. Qed.

Lemma get_run (h : Heap.heap) (a : Heap.loc) (entries : list Heap.value)
    (i : nat) :
  h !! a = Some entries ->
  Heap.get a i h = Some (default Heap.VUndefined (entries !! i), h).
Proof. intros H. unfold Heap.get. now rewrite H. Qed.

Lemma set_run (h : Heap.heap) (a : Heap.loc) (entries : list Heap.value)
    (i : nat) (v : Heap.value) :
  h !! a = Some entries ->
  Heap.set a i v h = Some (tt, <[a := Heap.store entries i v]> h).
Proof. intros H. unfold Heap.set. now rewrite H. Qed.

Ltac step_get := erewrite bind_run by (apply get_run; eassumption).
Ltac step_get_new :=
  erewrite bind_run by (apply get_run; apply lookup_insert_eq).
Ltac step_set_new :=
  erewrite bind_run by (apply set_run; apply lookup_insert_eq).

(** [rotate] on a two-element array that is the newest binding of the
    store. *)
Lemma rotate_fresh (h : Heap.heap) (l : Heap.loc) (v0 v1 : Heap.value)
    (angle : number) :
  Heap.rotate l angle (<[l := [v0; v1]]> h) =
  Some (l, <[l := Heap.array_of
                    (Coordinate_rotate (Heap.ToNumber v0, Heap.ToNumber v1) angle)]> h).
Proof.
  unfold Heap.rotate.
  do 2 step_get_new. do 2 step_set_new.
  unfold Heap.ret. rewrite !insert_insert_eq. reflexivity.
Qed.

Lemma fromLonLat_run (this : FlatEarthCoordinateSystem Heap.loc)
    (coords : Heap.loc) (h : Heap.heap) (c o : list Heap.value) :
  h !! coords = Some c -> h !! _origin this = Some o ->
  Heap.fromLonLat this coords h =
  Some (fresh (dom h),
        <[fresh (dom h) :=
            Heap.array_of
              (fromLonLat (Heap.with_origin this (Heap.as_coordinate o))
                          (Heap.as_coordinate c))]> h).
Proof.
  intros Hc Ho. unfold Heap.fromLonLat.
  do 4 step_get.
  erewrite bind_run by reflexivity.
  erewrite bind_run by apply rotate_fresh.
  step_get_new. step_set_new.
  unfold Heap.ret. rewrite insert_insert_eq. reflexivity.
Qed.

Lemma toLonLat_run (this : FlatEarthCoordinateSystem Heap.loc)
    (coords : Heap.loc) (h : Heap.heap) (c o : list Heap.value) :
  h !! coords = Some c -> h !! _origin this = Some o ->
  let result := fresh (dom h) in
  let rotated :=
    Heap.array_of
      (Coordinate_rotate
         (Heap.ToNumber (default Heap.VUndefined (c !! 0%nat)),
          (Heap.ToNumber (default Heap.VUndefined (c !! 1%nat)) * _yMul this)%js)
         (_angle this)) in
  let h1 := <[result := rotated]> h in
  Heap.toLonLat this coords h =
  Some (fresh (dom h1),
        <[fresh (dom h1) :=
            Heap.array_of
              (toLonLat (Heap.with_origin this (Heap.as_coordinate o))
                        (Heap.as_coordinate c))]> h1).
Proof.
  intros Hc Ho. cbv zeta. unfold Heap.toLonLat.
  do 2 step_get.
  erewrite bind_run by reflexivity.
  erewrite bind_run by apply rotate_fresh.
  assert (Ho' : <[fresh (dom h) :=
                    Heap.array_of
                      (Coordinate_rotate
                         (Heap.ToNumber (default Heap.VUndefined (c !! 0%nat)),
                          Heap.ToNumber
                            (Heap.VNum
                               (Heap.ToNumber (default Heap.VUndefined (c !! 1%nat))
                                * _yMul this)%js))
                         (_angle this))]> h !! _origin this = Some o).
  { rewrite lookup_insert_ne; [exact Ho |].
    apply not_eq_sym, used_not_fresh. now exists o. }
  step_get_new. step_get. step_get_new. step_get.
  reflexivity.
Qed.

End HeapFacts.

(** C10: [fromLonLat] and [toLonLat] do not mutate the array passed to
    them.  Each returns a reference to an array that did not exist before
    the call, hence distinct from its argument, and after the call every
    array that existed before, the argument included, has the entries it
    had; the in-place rotation and the assignment touch the new array
    only.  The entries of the returned array are the values [fromLonLat]
    and [toLonLat] compute from the entries of the argument. *)
Theorem conversions_do_not_mutate (this : FlatEarthCoordinateSystem Heap.loc)
    (coords : Heap.loc) (h : Heap.heap) (c o : list Heap.value) :
  h !! coords = Some c ->
  h !! _origin this = Some o ->
  (exists (l : Heap.loc) (h' : Heap.heap),
     Heap.fromLonLat this coords h = Some (l, h')
     /\ l <> coords
     /\ h !! l = None
     /\ h' !! coords = Some c
     /\ (forall (a : Heap.loc) (e : list Heap.value),
           h !! a = Some e -> h' !! a = Some e)
     /\ h' !! l =
        Some (Heap.array_of
                (fromLonLat (Heap.with_origin this (Heap.as_coordinate o))
                            (Heap.as_coordinate c))))
  /\ (exists (l : Heap.loc) (h' : Heap.heap),
        Heap.toLonLat this coords h = Some (l, h')
        /\ l <> coords
        /\ h !! l = None
        /\ h' !! coords = Some c
        /\ (forall (a : Heap.loc) (e : list Heap.value),
              h !! a = Some e -> h' !! a = Some e)
        /\ h' !! l =
           Some (Heap.array_of
                   (toLonLat (Heap.with_origin this (Heap.as_coordinate o))
                             (Heap.as_coordinate c)))).
Proof.
  intros Hc Ho. split.
  - eexists _, _. split; [apply (HeapFacts.fromLonLat_run _ _ _ _ _ Hc Ho) |].
    assert (Hpre : forall (a : Heap.loc) (e : list Heap.value),
               h !! a = Some e -> a <> fresh (dom h)).
    { intros a e Ha. apply HeapFacts.used_not_fresh. now exists e. }
    split; [apply not_eq_sym, (Hpre _ _ Hc) |].
    split; [apply HeapFacts.fresh_unused |].
    split; [rewrite lookup_insert_ne; [exact Hc | apply not_eq_sym, (Hpre _ _ Hc)] |].
    split; [| apply lookup_insert_eq].
    intros a e Ha. rewrite lookup_insert_ne; [exact Ha |].
    apply not_eq_sym, (Hpre _ _ Ha).
  - pose proof (HeapFacts.toLonLat_run _ _ _ _ _ Hc Ho) as Hrun.
    cbv zeta in Hrun.
    match type of Hrun with
    | _ = Some (fresh (dom ?m), _) => set (h1 := m) in *
    end.
    assert (Hpre : forall (a : Heap.loc) (e : list Heap.value),
               h !! a = Some e -> h1 !! a = Some e).
    { intros a e Ha. unfold h1. rewrite lookup_insert_ne; [exact Ha |].
      apply not_eq_sym, HeapFacts.used_not_fresh. now exists e. }
    assert (Hpre' : forall (a : Heap.loc) (e : list Heap.value),
               h !! a = Some e -> a <> fresh (dom h1)).
    { intros a e Ha. apply HeapFacts.used_not_fresh. exists e. now apply Hpre. }
    eexists _, _. split; [exact Hrun |].
    split; [apply not_eq_sym, (Hpre' _ _ Hc) |].
    split.
    { destruct (h !! fresh (dom h1)) as [e |] eqn:E; [| reflexivity].
      now elim (Hpre' _ _ E). }
    split; [rewrite lookup_insert_ne;
            [apply Hpre, Hc | apply not_eq_sym, (Hpre' _ _ Hc)] |].
    split; [| apply lookup_insert_eq].
    intros a e Ha. rewrite lookup_insert_ne; [apply Hpre, Ha |].
    apply not_eq_sym, (Hpre' _ _ Ha).
Qed.

Lemma conversions_do_not_mutate_witness :
  let this := _precalculate 2%positive (Fin 47) (Fin 0) WGS84 "neu" in
  let c := [Heap.VNum (Fin 19); Heap.VNum (Fin 48)] in
  let o := [Heap.VNum (Fin 19); Heap.VNum (Fin 47)] in
  let h : Heap.heap := <[1%positive := c]> (<[2%positive := o]> ∅) in
  exists (l : Heap.loc) (h' : Heap.heap),
    Heap.fromLonLat this 1%positive h = Some (l, h')
    /\ l <> 1%positive
    /\ h' !! 1%positive = Some c.
Proof.
  cbv zeta.
  set (this := _precalculate 2%positive (Fin 47) (Fin 0) WGS84 "neu").
  set (c := [Heap.VNum (Fin 19); Heap.VNum (Fin 48)]).
  set (o := [Heap.VNum (Fin 19); Heap.VNum (Fin 47)]).
  set (h := <[1%positive := c]> (<[2%positive := o]> ∅) : Heap.heap).
  assert (Hc : h !! 1%positive = Some c) by apply lookup_insert_eq.
  assert (Ho : h !! _origin this = Some o).
  { unfold h, this. cbn [_origin _precalculate].
    rewrite lookup_insert_ne by discriminate. apply lookup_insert_eq. }
  destruct (proj1 (conversions_do_not_mutate this 1%positive h c o Hc Ho))
    as (l & h' & Hrun & Hne & _ & Hsame & _).
  exists l, h'. repeat split; assumption.
Defined.

(** C4: the constructor throws if and only if the axis convention is
    neither ['neu'] nor ['nwu'], and the message of the error ends with
    the rejected value; with ['neu'] or ['nwu'] it returns an instance,
    and with ['xyz'] it throws.  [fromLonLat] and [toLonLat] return a
    result for every array argument, whatever its entries and the
    ellipsoid. *)
Theorem constructor_throws_iff (origin : coordinate) (angle : number)
    (type : string) (el : EllipsoidModel) :
  ((exists message : string, constructor origin angle type el = Throw message)
   <-> ~ valid_type type)
  /\ (~ valid_type type ->
      constructor origin angle type el =
      Throw ("unknown coordinate system type: " ++ type))
  /\ (valid_type type ->
      exists cs : FlatEarthCoordinateSystem coordinate,
        constructor origin angle type el = Normal cs)
  /\ constructor origin angle "xyz" el
     = Throw "unknown coordinate system type: xyz"
  /\ (forall (this : FlatEarthCoordinateSystem Heap.loc) (coords : Heap.loc)
             (h : Heap.heap) (c o : list Heap.value),
        h !! coords = Some c -> h !! _origin this = Some o ->
        is_Some (Heap.fromLonLat this coords h)
        /\ is_Some (Heap.toLonLat this coords h)).
Proof.
  split; [split |].
  - intros [message H] Ht.
    rewrite constructor_valid_type in H by assumption. discriminate.
  - intros Ht. eexists. apply constructor_invalid_type, Ht.
  - split; [apply constructor_invalid_type |].
    split; [intros Ht; eexists; apply constructor_valid_type, Ht |].
    split; [reflexivity |].
    intros this coords h c o Hc Ho. split.
    + rewrite (HeapFacts.fromLonLat_run _ _ _ _ _ Hc Ho). eexists. reflexivity.
    + pose proof (HeapFacts.toLonLat_run _ _ _ _ _ Hc Ho) as Hrun.
      cbv zeta in Hrun. rewrite Hrun. eexists. reflexivity.
Qed.

(** * Further properties of the geography helpers *)

(** ** Euclidean distance *)

Lemma distance_loop_cons (a b : number) (first second : list number)
    (n k : nat) (acc : number) :
  fold_left (distance_step (a :: first) (b :: second)) (seq (S k) n) acc =
  fold_left (distance_step first second) (seq k n) acc.
Proof.
  revert k acc. induction n as [| n IH]; intros k acc; [reflexivity |].
  cbn [seq fold_left]. rewrite IH. reflexivity.
Qed.

Lemma distance_loop_finite (xs ys : list R) (acc : R) :
  fold_left (distance_step (map Fin xs) (map Fin ys))
    (seq 0 (Nat.min (length xs) (length ys))) (Fin acc) =
  Fin (acc + sum_sq_diff xs ys).
Proof.
  revert ys acc. induction xs as [| x xs IH]; intros ys acc.
  - cbn. f_equal. ring.
  - destruct ys as [| y ys].
    + cbn. f_equal. ring.
    + cbn [length Nat.min seq fold_left map].
      rewrite distance_loop_cons.
      change (distance_step (Fin x :: map Fin xs) (Fin y :: map Fin ys)
                (Fin acc) 0)
        with (Fin acc + Math.pow (Fin (x + - y)) (Fin 2))%js.
      rewrite pow_fin_2. cbn [add]. rewrite IH.
      cbn [sum_sq_diff]. f_equal. ring.
Qed.

Lemma sum_sq_diff_nonneg (xs ys : list R) : 0 <= sum_sq_diff xs ys.
Proof.
  revert ys.
  induction xs as [| x xs IH]; intros [| y ys]; cbn [sum_sq_diff]; try lra.
  specialize (IH ys). pose proof (Rle_0_sqr (x - y)) as H.
  unfold Rsqr in H. lra.
Qed.

Lemma euclideanDistance_finite (xs ys : list R) :
  euclideanDistance (map Fin xs) (map Fin ys) = Fin (sqrt (sum_sq_diff xs ys)).
Proof.
  unfold euclideanDistance. rewrite !length_map.
  fold (distance_step (map Fin xs) (map Fin ys)).
  rewrite distance_loop_finite, sqrt_fin.
  - f_equal. f_equal. ring.
  - pose proof (sum_sq_diff_nonneg xs ys). lra.
Qed.

Lemma fold_left_seq_ext {A : Type} (f g : A -> nat -> A) (k n : nat) (a : A) :
  (forall (acc : A) (i : nat), (k <= i < k + n)%nat -> f acc i = g acc i) ->
  fold_left f (seq k n) a = fold_left g (seq k n) a.
Proof.
  revert k a. induction n as [| n IH]; intros k a H; [reflexivity |].
  cbn [seq fold_left]. rewrite (H a k) by lia. apply IH.
  intros acc i Hi. apply H. lia.
Qed.

Lemma sub_swap (a b : number) : (b - a)%js = (- (a - b))%js.
Proof.
  destruct a, b; cbn; try reflexivity. f_equal. ring.
Qed.

Lemma pow_2_neg (x : number) : Math.pow (- x)%js (Fin 2) = Math.pow x (Fin 2).
Proof.
  destruct x; cbn [neg].
  - rewrite !pow_fin_2. f_equal. ring.
  - unfold Math.pow.
    destruct (Req_dec_T 2 0); [lra |].
    destruct (Rlt_dec 0 2); [| lra].
    unfold Math.is_odd_integer, Math.is_integer. rewrite (ZfloorZ 2).
    destruct (Req_dec_T 2 2); reflexivity.
  - unfold Math.pow.
    destruct (Req_dec_T 2 0); [lra |].
    destruct (Rlt_dec 0 2); [| lra].
    unfold Math.is_odd_integer, Math.is_integer. rewrite (ZfloorZ 2).
    destruct (Req_dec_T 2 2); reflexivity.
  - reflexivity.
Qed.

Lemma euclideanDistance_swap (first second : list number) :
  euclideanDistance first second = euclideanDistance second first.
Proof.
  unfold euclideanDistance. rewrite (Nat.min_comm (length second)).
  f_equal. apply fold_left_seq_ext. intros acc i _.
  rewrite (sub_swap (entry first i) (entry second i)), pow_2_neg.
  reflexivity.
Qed.

(** X1: the distance is symmetric in its two arguments, whatever the
    numbers in the arrays (infinite ones and [NaN] included) and whatever
    their lengths. *)
Theorem euclideanDistance_symmetric (first second : list number) :
  euclideanDistance first second = euclideanDistance second first.
Proof. exact (euclideanDistance_swap first second). Qed.

Lemma entry_take (a : list number) (n i : nat) :
  (i < n)%nat -> entry (take n a) i = entry a i.
Proof.
  intros H. unfold entry. now rewrite lookup_take_lt.
Qed.

Lemma euclideanDistance_take (first second : list number) :
  let n := Nat.min (length first) (length second) in
  euclideanDistance first second =
  euclideanDistance (take n first) (take n second).
Proof.
  cbv zeta. unfold euclideanDistance.
  rewrite !length_take.
  replace (Nat.min (Nat.min (Nat.min (length first) (length second)) (length first))
                   (Nat.min (Nat.min (length first) (length second)) (length second)))
    with (Nat.min (length first) (length second)) by lia.
  f_equal. apply fold_left_seq_ext. intros acc i Hi.
  rewrite !entry_take by lia. reflexivity.
Qed.

(** X2: only the entries up to the length of the shorter array count:
    entries appended to the longer array do not change the distance (the
    distance between a 2D and a 3D coordinate ignores the third entry),
    and the distance from the empty array to any array is 0. *)
Theorem euclideanDistance_shorter_length (first second extra : list number) :
  (length first <= length second)%nat ->
  euclideanDistance first (second ++ extra) = euclideanDistance first second
  /\ euclideanDistance (second ++ extra) first = euclideanDistance second first
  /\ euclideanDistance [] second = Fin 0.
Proof.
  intros Hle.
  assert (E : euclideanDistance first (second ++ extra)
              = euclideanDistance first second).
  { rewrite (euclideanDistance_take first (second ++ extra)).
    rewrite (euclideanDistance_take first second). cbv zeta.
    rewrite length_app.
    replace (Nat.min (length first) (length second + length extra))
      with (Nat.min (length first) (length second)) by lia.
    rewrite take_app_le by lia. reflexivity. }
  split; [exact E |]. split.
  - rewrite (euclideanDistance_swap (second ++ extra)), E.
    apply euclideanDistance_swap.
  - unfold euclideanDistance. cbn [length Nat.min seq fold_left].
    rewrite sqrt_fin by lra. now rewrite sqrt_0.
Qed.

Lemma euclideanDistance_shorter_length_witness :
  euclideanDistance [Fin 1; Fin 2] ([Fin 4; Fin 6] ++ [Fin 100])
  = euclideanDistance [Fin 1; Fin 2] [Fin 4; Fin 6].
Proof.
  assert (H : (length [Fin 1; Fin 2] <= length [Fin 4; Fin 6])%nat)
    by (cbn; lia).
  exact (proj1 (euclideanDistance_shorter_length
                  [Fin 1; Fin 2] [Fin 4; Fin 6] [Fin 100] H)).
Defined.

Lemma sum_sq_diff_zero_iff (xs ys : list R) :
  sum_sq_diff xs ys = 0 <->
  take (Nat.min (length xs) (length ys)) xs
  = take (Nat.min (length xs) (length ys)) ys.
Proof.
  revert ys. induction xs as [| x xs IH]; intros [| y ys];
    cbn [sum_sq_diff length Nat.min take]; try tauto.
  pose proof (sum_sq_diff_nonneg xs ys) as Hs.
  pose proof (Rle_0_sqr (x - y)) as Hq. unfold Rsqr in Hq.
  split.
  - intros H. assert (Hx : (x - y) * (x - y) = 0) by lra.
    assert (Hr : sum_sq_diff xs ys = 0) by lra.
    apply Rmult_integral in Hx.
    assert (x = y) by lra. subst y.
    f_equal. apply IH, Hr.
  - intros [= -> H]. apply IH in H. rewrite H. ring.
Qed.

(** X3: over exact real arithmetic (no rounding, underflow or overflow),
    for arrays of finite numbers the distance is the square root of the
    sum of the squared differences over the common length; it is never
    negative, and it is 0 exactly when the two arrays agree on their
    common length. *)
Theorem euclideanDistance_zero_iff (xs ys : list R) :
  exists d : R,
    euclideanDistance (map Fin xs) (map Fin ys) = Fin d
    /\ d = sqrt (sum_sq_diff xs ys)
    /\ 0 <= d
    /\ (d = 0 <->
        take (Nat.min (length xs) (length ys)) xs
        = take (Nat.min (length xs) (length ys)) ys).
Proof.
  exists (sqrt (sum_sq_diff xs ys)).
  split; [apply euclideanDistance_finite |]. split; [reflexivity |].
  split; [apply sqrt_pos |].
  rewrite <- sum_sq_diff_zero_iff. split.
  - apply sqrt_eq_0, sum_sq_diff_nonneg.
  - intros ->. apply sqrt_0.
Qed.

(** The sum of the products of the differences of three lists. *)
Lemma triangle_terms (xs ys zs : list R) :
  length xs = length ys -> length ys = length zs ->
  exists dot : R,
    sum_sq_diff xs zs = sum_sq_diff xs ys + 2 * dot + sum_sq_diff ys zs
    /\ dot * dot <= sum_sq_diff xs ys * sum_sq_diff ys zs.
Proof.
  revert ys zs. induction xs as [| x xs IH]; intros [| y ys] [| z zs] H1 H2;
    try discriminate.
  - exists 0. cbn. split; lra.
  - injection H1 as H1. injection H2 as H2.
    destruct (IH ys zs H1 H2) as (D & Hsum & Hcs).
    exists ((x - y) * (y - z) + D). cbn [sum_sq_diff].
    pose proof (sum_sq_diff_nonneg xs ys) as HU.
    pose proof (sum_sq_diff_nonneg ys zs) as HV.
    set (U := sum_sq_diff xs ys) in *. set (V := sum_sq_diff ys zs) in *.
    set (a := x - y). set (b := y - z).
    replace (x - z) with (a + b) by (unfold a, b; ring).
    split; [rewrite Hsum; ring |].
    assert (Hmix : 2 * (a * b) * D <= a * a * V + b * b * U).
    { assert (Hnn : 0 <= a * a * V + b * b * U) by nra.
      destruct (Rle_dec (2 * (a * b) * D) 0) as [Hneg | Hpos]; [lra |].
      apply Rnot_le_lt in Hpos.
      apply Rsqr_incr_0_var; [| assumption]. unfold Rsqr.
      assert (4 * (a * a) * (b * b) * (D * D)
              <= 4 * (a * a) * (b * b) * (U * V)).
      { apply Rmult_le_compat_l; [| assumption].
        pose proof (Rle_0_sqr (a * b)) as Hab. unfold Rsqr in Hab. nra. }
      pose proof (Rle_0_sqr (a * a * V - b * b * U)) as Hsq.
      unfold Rsqr in Hsq. nra. }
    nra.
Qed.

(** X4: over exact real arithmetic (no rounding, underflow or overflow),
    on arrays of finite numbers of one common length the distance
    satisfies the triangle inequality. *)
Theorem euclideanDistance_triangle (xs ys zs : list R) :
  length xs = length ys -> length ys = length zs ->
  exists dxz dxy dyz : R,
    euclideanDistance (map Fin xs) (map Fin zs) = Fin dxz
    /\ euclideanDistance (map Fin xs) (map Fin ys) = Fin dxy
    /\ euclideanDistance (map Fin ys) (map Fin zs) = Fin dyz
    /\ dxz <= dxy + dyz.
Proof.
  intros H1 H2.
  exists (sqrt (sum_sq_diff xs zs)), (sqrt (sum_sq_diff xs ys)),
         (sqrt (sum_sq_diff ys zs)).
  rewrite !euclideanDistance_finite. repeat split.
  destruct (triangle_terms xs ys zs H1 H2) as (D & Hsum & Hcs).
  pose proof (sum_sq_diff_nonneg xs ys) as HU.
  pose proof (sum_sq_diff_nonneg ys zs) as HV.
  set (U := sum_sq_diff xs ys) in *. set (V := sum_sq_diff ys zs) in *.
  rewrite Hsum.
  pose proof (sqrt_pos U) as HA. pose proof (sqrt_pos V) as HB.
  pose proof (sqrt_sqrt U HU) as EA. pose proof (sqrt_sqrt V HV) as EB.
  set (A := sqrt U) in *. set (B := sqrt V) in *.
  assert (HD : D <= A * B).
  { destruct (Rle_dec D 0) as [Hn | Hp]; [nra |].
    apply Rnot_le_lt in Hp.
    apply Rsqr_incr_0_var; [| nra]. unfold Rsqr.
    replace (A * B * (A * B)) with ((A * A) * (B * B)) by ring.
    rewrite EA, EB. exact Hcs. }
  rewrite <- (sqrt_square (A + B)) by lra.
  apply sqrt_le_1_alt. nra.
Qed.

Lemma euclideanDistance_triangle_witness :
  exists dxz dxy dyz : R,
    euclideanDistance (map Fin [0; 0]) (map Fin [3; 4]) = Fin dxz
    /\ euclideanDistance (map Fin [0; 0]) (map Fin [3; 0]) = Fin dxy
    /\ euclideanDistance (map Fin [3; 0]) (map Fin [3; 4]) = Fin dyz
    /\ dxz <= dxy + dyz.
Proof.
  apply (euclideanDistance_triangle [0; 0] [3; 0] [3; 4]); reflexivity.
Defined.

(** ** Translation *)

Lemma strictly_zero_fin (r : R) :
  strictly_zero (Some (Fin r)) = true <-> r = 0.
Proof.
  unfold strictly_zero. destruct (Req_dec_T r 0); split; intros; try assumption;
    try reflexivity; try discriminate; contradiction.
Qed.

(** X5: the result has as many coordinates as the input.  With a zero
    displacement the input is returned as it is, entries beyond the
    second included; with any other displacement every coordinate of the
    result has exactly two entries, the first two entries of the input
    coordinate moved by the displacement, so a third entry (an altitude)
    is dropped. *)
Theorem translateBy_shape (dx dy : R) (rest : list number)
    (coordinates : list (list number)) :
  length (translateBy (Fin dx :: Fin dy :: rest) coordinates)
  = length coordinates
  /\ (dx = 0 /\ dy = 0 ->
      translateBy (Fin dx :: Fin dy :: rest) coordinates = coordinates)
  /\ (dx <> 0 \/ dy <> 0 ->
      forall (i : nat) (c : list number),
        coordinates !! i = Some c ->
        translateBy (Fin dx :: Fin dy :: rest) coordinates !! i
        = Some [(entry c 0 + Fin dx)%js; (entry c 1 + Fin dy)%js]).
Proof.
  unfold translateBy. cbn [lookup list_lookup].
  split; [| split].
  - destruct (strictly_zero (Some (Fin dx)) && strictly_zero (Some (Fin dy)));
      [reflexivity | apply length_map].
  - intros [-> ->].
    assert (E : strictly_zero (Some (Fin 0)) = true) by now apply strictly_zero_fin.
    now rewrite E.
  - intros Hne i c Hc.
    assert (E : strictly_zero (Some (Fin dx)) && strictly_zero (Some (Fin dy))
                = false).
    { apply andb_false_iff.
      destruct Hne as [H | H]; [left | right];
        (destruct (strictly_zero (Some (Fin _))) eqn:Ez; [| reflexivity]);
        apply strictly_zero_fin in Ez; contradiction. }
    rewrite E, list_lookup_fmap, Hc. reflexivity.
Qed.

Lemma translateBy_shape_witness :
  translateBy [Fin 1; Fin 0] [[Fin 5; Fin 6; Fin 100]] !! 0%nat
  = Some [(entry [Fin 5; Fin 6; Fin 100] 0 + Fin 1)%js;
          (entry [Fin 5; Fin 6; Fin 100] 1 + Fin 0)%js].
Proof.
  assert (H : 1 <> 0 \/ 0 <> 0) by (left; lra).
  exact (proj2 (proj2 (translateBy_shape 1 0 [] [[Fin 5; Fin 6; Fin 100]]))
           H 0%nat [Fin 5; Fin 6; Fin 100] eq_refl).
Defined.

Lemma translateBy_points (dx dy : R) (ps : list (R * R)) :
  translateBy [Fin dx; Fin dy]
    (map (fun p : R * R => [Fin (fst p); Fin (snd p)]) ps)
  = map (fun p : R * R => [Fin (fst p + dx); Fin (snd p + dy)]) ps.
Proof.
  unfold translateBy. cbn [lookup list_lookup].
  destruct (strictly_zero (Some (Fin dx))) eqn:Ex;
    [destruct (strictly_zero (Some (Fin dy))) eqn:Ey |]; cbn [andb].
  - apply strictly_zero_fin in Ex, Ey. subst.
    apply map_ext. intros [x y]. cbn. f_equal; [| f_equal]; f_equal; ring.
  - rewrite map_map. apply map_ext. intros [x y]. reflexivity.
  - rewrite map_map. apply map_ext. intros [x y]. reflexivity.
Qed.

(** X6: over exact real arithmetic (no rounding, underflow or overflow),
    on two-entry coordinates of finite numbers, translating by one finite
    displacement and then by another is translating by their sum; in
    particular translating by a displacement and then by its opposite
    gives back the coordinates. *)
Theorem translateBy_compose (dx1 dy1 dx2 dy2 : R) (ps : list (R * R)) :
  let coordinates := map (fun p : R * R => [Fin (fst p); Fin (snd p)]) ps in
  translateBy [Fin dx1; Fin dy1] (translateBy [Fin dx2; Fin dy2] coordinates)
  = translateBy [Fin (dx2 + dx1); Fin (dy2 + dy1)] coordinates
  /\ translateBy [Fin (- dx2); Fin (- dy2)]
       (translateBy [Fin dx2; Fin dy2] coordinates)
     = coordinates.
Proof.
  cbv zeta.
  assert (Hc : forall a1 b1 a2 b2 : R,
             translateBy [Fin a1; Fin b1]
               (translateBy [Fin a2; Fin b2]
                  (map (fun p : R * R => [Fin (fst p); Fin (snd p)]) ps))
             = map (fun p : R * R => [Fin (fst p + (a2 + a1));
                                      Fin (snd p + (b2 + b1))]) ps).
  { intros a1 b1 a2 b2. rewrite translateBy_points.
    rewrite <- (map_map (fun p : R * R => (fst p + a2, snd p + b2))
                        (fun p : R * R => [Fin (fst p); Fin (snd p)])).
    rewrite translateBy_points, map_map. apply map_ext. intros [x y]. cbn.
    f_equal; [| f_equal]; f_equal; ring. }
  split.
  - rewrite Hc, translateBy_points. reflexivity.
  - rewrite Hc. apply map_ext. intros [x y]. cbn.
    f_equal; [| f_equal]; f_equal; ring.
Qed.

(** ** Looking features up on the layers of a map *)

Section FeatureLookup.

Context {Feature : Type}.

Lemma fill_from_source_prefix (lookup_feature : string -> option Feature)
    (featureIds : list string) (features : list (option Feature)) (k : nat) :
  let step := fun (features : list (option Feature)) (i : nat) =>
    match features !! i, featureIds !! i with
    | Some None, Some id =>
        match lookup_feature id with
        | Some feature => <[i := Some feature]> features
        | None => features
        end
    | _, _ => features
    end in
  length (fold_left step (seq 0 k) features) = length features
  /\ forall (j : nat) (slot : option Feature) (id : string),
       features !! j = Some slot -> featureIds !! j = Some id ->
       fold_left step (seq 0 k) features !! j =
       Some (if decide (j < k)%nat then merge_slot lookup_feature slot id
             else slot).
Proof.
  intros step. induction k as [| k [IHlen IH]].
  - split; [reflexivity |]. intros j slot id Hs _. cbn.
    destruct (decide (j < 0)%nat); [lia | exact Hs].
  - rewrite seq_S, fold_left_app. cbn [fold_left Nat.add].
    set (acc := fold_left step (seq 0 k) features) in *.
    assert (Hstep : length (step acc k) = length acc
                    /\ forall j : nat, j <> k -> step acc k !! j = acc !! j).
    { unfold step.
      destruct (acc !! k) as [[f |] |]; try (split; [reflexivity | reflexivity]).
      destruct (featureIds !! k) as [id |]; try (split; reflexivity).
      destruct (lookup_feature id); try (split; reflexivity).
      split; [apply length_insert |].
      intros j Hj. apply list_lookup_insert_ne. congruence. }
    destruct Hstep as [Hlen Hother].
    split; [congruence |].
    intros j slot id Hs Hid.
    destruct (Nat.eq_dec j k) as [-> | Hne].
    + destruct (decide (k < S k)%nat); [| lia].
      pose proof (IH k slot id Hs Hid) as Hk.
      destruct (decide (k < k)%nat); [lia |].
      unfold step. rewrite Hk, Hid.
      destruct slot as [f |]; cbn [merge_slot]; [exact Hk |].
      destruct (lookup_feature id) as [f |]; [| exact Hk].
      apply list_lookup_insert_eq.
      apply lookup_lt_Some in Hk. exact Hk.
    + rewrite Hother by assumption. rewrite (IH j slot id Hs Hid).
      destruct (decide (j < k)%nat), (decide (j < S k)%nat);
        try reflexivity; lia.
Qed.

Lemma fill_from_source_spec (lookup_feature : string -> option Feature)
    (featureIds : list string) (features : list (option Feature)) :
  length features = length featureIds ->
  fill_from_source lookup_feature featureIds features
  = zip_with (merge_slot lookup_feature) features featureIds.
Proof.
  intros Hlen. unfold fill_from_source.
  destruct (fill_from_source_prefix lookup_feature featureIds features
              (length features)) as [Hl H].
  cbv zeta in Hl, H.
  apply list_eq. intros j.
  rewrite lookup_zip_with.
  destruct (features !! j) as [slot |] eqn:Hs.
  - destruct (featureIds !! j) as [id |] eqn:Hid.
    + rewrite (H j slot id Hs Hid). cbn.
      apply lookup_lt_Some in Hs.
      destruct (decide (j < length features)%nat); [reflexivity | lia].
    + apply lookup_lt_Some in Hs. apply lookup_ge_None in Hid. lia.
  - cbn. apply lookup_ge_None. rewrite Hl. now apply lookup_ge_None.
Qed.

End FeatureLookup.

Section FindFeatures.

Context {Feature : Type}.

Lemma zip_with_merge_none (features : list (option Feature))
    (featureIds : list string) :
  length features = length featureIds ->
  zip_with (merge_slot (fun _ => None)) features featureIds = features.
Proof.
  revert featureIds.
  induction features as [| slot features IH]; intros [| id ids] H;
    try discriminate; [reflexivity |].
  cbn [zip_with]. rewrite IH by (cbn in H; lia).
  destruct slot; reflexivity.
Qed.

Lemma visit_layer_spec (featureIds : list string)
    (features : list (option Feature)) (layer : Layer Feature) :
  length features = length featureIds ->
  visit_layer featureIds features layer
  = zip_with (merge_slot (layer_feature layer)) features featureIds.
Proof.
  intros Hlen. unfold visit_layer.
  assert (Hnone : forall g : string -> option Feature,
             (forall id, g id = None) ->
             features = zip_with (merge_slot g) features featureIds).
  { intros g Hg. rewrite <- (zip_with_merge_none features featureIds Hlen) at 1.
    apply zip_with_ext; try reflexivity.
    intros [f |] id; cbn; [reflexivity | now rewrite Hg]. }
  destruct layer as [visible source]. unfold layer_feature.
  cbn [getVisible getSource].
  destruct visible; cbn [negb]; [| now apply Hnone].
  destruct source as [[[[lookup_feature |]] |] |]; cbn [getFeatureById];
    try (now apply Hnone).
  now apply fill_from_source_spec.
Qed.

Lemma visit_layers_spec (layers : list (Layer Feature))
    (featureIds : list string) (features : list (option Feature)) :
  length features = length featureIds ->
  fold_left (visit_layer featureIds) layers features
  = zip_with (merge_slot (first_feature layers)) features featureIds.
Proof.
  revert features. induction layers as [| layer rest IH]; intros features Hlen.
  - cbn [fold_left]. symmetry.
    rewrite <- (zip_with_merge_none features featureIds Hlen) at 2.
    apply zip_with_ext; reflexivity.
  - cbn [fold_left]. rewrite visit_layer_spec by assumption.
    rewrite IH by (rewrite length_zip_with; lia).
    apply list_eq. intros j. rewrite !lookup_zip_with.
    destruct (features !! j) as [slot |]; [| reflexivity].
    destruct (featureIds !! j) as [id |]; [| reflexivity].
    cbn. f_equal.
    destruct slot as [f |]; [reflexivity |]. cbn.
    destruct (layer_feature layer id); reflexivity.
Qed.

Lemma findFeaturesById_spec (layers : list (Layer Feature))
    (featureIds : list string) :
  findFeaturesById layers featureIds = map (first_feature layers) featureIds.
Proof.
  unfold findFeaturesById.
  rewrite visit_layers_spec by apply length_replicate.
  induction featureIds as [| id ids IH]; [reflexivity |].
  cbn. now rewrite IH.
Qed.

(** X7: the nested loops find, for each identifier on its own, the feature
    of the first visible layer (in the order the layers are visited) whose
    source has one, and leave the slot undefined when no layer has one;
    the result has the length of the list of identifiers.  A feature found
    on an earlier layer is not replaced by a later one. *)
Theorem findFeaturesById_first_visible (layers : list (Layer Feature))
    (featureIds : list string) :
  findFeaturesById layers featureIds = map (first_feature layers) featureIds
  /\ length (findFeaturesById layers featureIds) = length featureIds.
Proof.
  rewrite findFeaturesById_spec. split; [reflexivity | apply length_map].
Qed.

(** X8: [findFeatureById] returns the feature of the first visible layer
    that has the identifier, and nothing when no visible layer has it. *)
Theorem findFeatureById_first_visible (layers : list (Layer Feature))
    (featureId : string) :
  findFeatureById layers featureId = first_feature layers featureId.
Proof.
  unfold findFeatureById.
  rewrite findFeaturesById_spec. reflexivity.
Qed.

Lemma first_feature_app (l1 l2 : list (Layer Feature)) (id : string) :
  first_feature (l1 ++ l2) id =
  match first_feature l1 id with
  | Some feature => Some feature
  | None => first_feature l2 id
  end.
Proof.
  induction l1 as [| layer l1 IH]; [reflexivity |]. cbn.
  destruct (layer_feature layer id); [reflexivity | exact IH].
Qed.

(** X9: a layer that is not visible never contributes a feature, wherever
    it stands among the layers and whatever its source holds: the result
    is the one obtained without that layer. *)
Theorem findFeaturesById_invisible_layer (l1 l2 : list (Layer Feature))
    (layer : Layer Feature) (featureIds : list string) :
  getVisible layer = false ->
  findFeaturesById (l1 ++ layer :: l2) featureIds
  = findFeaturesById (l1 ++ l2) featureIds.
Proof.
  intros Hv.
  rewrite !findFeaturesById_spec.
  apply map_ext. intros id. rewrite !first_feature_app. cbn [first_feature].
  unfold layer_feature at 1. rewrite Hv. reflexivity.
Qed.

End FindFeatures.

Lemma findFeaturesById_invisible_layer_witness :
  let hidden : Layer nat :=
    {| getVisible := false;
       getSource := Some (Some {| getFeatureById := Some (fun _ => Some 7%nat) |}) |} in
  findFeaturesById ([] ++ hidden :: []) ["a"] = findFeaturesById ([] ++ []) ["a"].
Proof.
  cbv zeta. apply findFeaturesById_invisible_layer. reflexivity.
Defined.

(** ** The closest point of a geometry *)

Lemma ltb_nan_r (x : number) : (x <? NaN)%js = false.
Proof. destruct x; reflexivity. Qed.

(** Replacing the smallest value so far by a smaller one keeps every
    value seen before not below it. *)
Lemma ltb_below (x y c : number) :
  (x <? c)%js = false -> (y <? c)%js = true -> (x <? y)%js = false.
Proof.
  destruct x as [a | | |], y as [b | | |], c as [d | | |]; cbn;
    try reflexivity; try discriminate;
    repeat match goal with
           | |- context [Rlt_dec ?u ?v] => destruct (Rlt_dec u v)
           end;
    try reflexivity; try discriminate; intros; lra.
Qed.

Lemma ltb_irrefl (x : number) : (x <? x)%js = false.
Proof.
  destruct x as [a | | |]; cbn; try reflexivity.
  destruct (Rlt_dec a a); [lra | reflexivity].
Qed.

Section MinBy.

Context {A : Type} (iteratee : A -> number).

Lemma minBy_step_invariant (seen : list A) (best : option (A * number))
    (value : A) :
  minBy_invariant iteratee seen best ->
  minBy_invariant iteratee (seen ++ [value]) (minBy_step iteratee best value).
Proof.
  unfold minBy_invariant, minBy_step.
  destruct best as [[p computed] |].
  - intros (Hin & Hc & Hn & Hmin).
    destruct (iteratee value <? computed)%js eqn:Hlt.
    + split; [apply in_or_app; right; now left |].
      split; [reflexivity |]. split.
      * intros E. rewrite E in Hlt. destruct computed; discriminate.
      * intros q Hq. apply in_app_or in Hq. destruct Hq as [Hq | [<- | []]].
        -- apply (ltb_below _ _ computed); [now apply Hmin | assumption].
        -- apply ltb_irrefl.
    + split; [apply in_or_app; now left |].
      split; [assumption |]. split; [assumption |].
      intros q Hq. apply in_app_or in Hq. destruct Hq as [Hq | [<- | []]].
      * now apply Hmin.
      * assumption.
  - intros Hnan.
    destruct (iteratee value) as [r | | |] eqn:Ev.
    1-3: (split; [apply in_or_app; right; now left |];
          split; [now rewrite Ev |]; split; [discriminate |];
          intros q Hq; apply in_app_or in Hq;
          destruct Hq as [Hq | [<- | []]];
          [rewrite (Hnan q Hq); reflexivity | rewrite Ev; apply ltb_irrefl]).
    intros q Hq. apply in_app_or in Hq. destruct Hq as [Hq | [<- | []]].
    + now apply Hnan.
    + assumption.
Qed.

Lemma minBy_fold_invariant (array seen : list A) (best : option (A * number)) :
  minBy_invariant iteratee seen best ->
  minBy_invariant iteratee (seen ++ array)
    (fold_left (minBy_step iteratee) array best).
Proof.
  revert seen best. induction array as [| value rest IH]; intros seen best H.
  - now rewrite app_nil_r.
  - cbn [fold_left]. replace (seen ++ value :: rest)%list
      with ((seen ++ [value]) ++ rest)%list by now rewrite <- app_assoc.
    apply IH, minBy_step_invariant, H.
Qed.

(** [minBy] returns an element whose value is not [NaN] and below which
    no element of the array lies; it returns nothing exactly when every
    value is [NaN] (an empty array included). *)
Lemma minBy_spec (array : list A) :
  match minBy array iteratee with
  | Some p =>
      In p array /\ iteratee p <> NaN
      /\ forall q : A, In q array -> (iteratee q <? iteratee p)%js = false
  | None => forall q : A, In q array -> iteratee q = NaN
  end.
Proof.
  unfold minBy.
  pose proof (minBy_fold_invariant array [] None) as H.
  cbn [app] in H.
  assert (H0 : minBy_invariant iteratee [] None) by (intros q []).
  specialize (H H0). unfold minBy_invariant in H.
  destruct (fold_left (minBy_step iteratee) array None) as [[p computed] |];
    cbn [fmap option_fmap option_map fst].
  - destruct H as (Hin & -> & Hn & Hmin). repeat split; assumption.
  - exact H.
Qed.

End MinBy.

Lemma all_normal_inv {A : Type} (results : list (completion A)) (xs : list A) :
  all_normal results = Normal xs -> results = map Normal xs.
Proof.
  revert xs. induction results as [| r rest IH]; intros xs H; cbn in H.
  - injection H as <-. reflexivity.
  - destruct r as [a | m]; [| discriminate].
    destruct (all_normal rest) as [others | m]; [| discriminate].
    injection H as <-. cbn. f_equal. now apply IH.
Qed.

Lemma all_normal_total {A : Type} (results : list (completion A)) :
  (exists message : string, all_normal results = Throw message)
  \/ exists xs : list A, all_normal results = Normal xs.
Proof.
  destruct (all_normal results) as [xs | m]; [right | left]; eexists; reflexivity.
Qed.

Lemma all_defined_inv {A : Type} (values : list (option A)) (xs : list A) :
  all_defined values = Some xs -> values = map Some xs.
Proof.
  revert xs. induction values as [| v rest IH]; intros xs H; cbn in H.
  - injection H as <-. reflexivity.
  - destruct v as [a |]; [| discriminate].
    destruct (all_defined rest) as [others |]; [| discriminate].
    injection H as <-. cbn. f_equal. now apply IH.
Qed.

Lemma all_defined_missing {A : Type} (values : list (option A)) :
  In None values -> all_defined values = None.
Proof.
  induction values as [| v rest IH]; intros H; [destruct H |].
  destruct v as [a |]; [| reflexivity].
  destruct H as [H | H]; [discriminate |]. cbn. now rewrite IH.
Qed.

Lemma getExactClosestPointOf_Multi (intersects : list number -> bool)
    (subGeometries : list Geometry) (coordinate : list number) :
  getExactClosestPointOf (Multi intersects subGeometries) coordinate =
  if intersects coordinate then Normal (Some coordinate)
  else
    match
      all_normal
        (map (fun subGeometry => getExactClosestPointOf subGeometry coordinate)
             subGeometries)
    with
    | Throw message => Throw message
    | Normal closestPoints =>
        match all_defined closestPoints with
        | Some points => Normal (minBy points (euclideanDistance coordinate))
        | None => Throw TypeError
        end
    end.
Proof. reflexivity. Qed.

Lemma closest_points_of_parts (subGeometries : list Geometry)
    (coordinate : list number) (closestPoints : list (option (list number)))
    (points : list (list number)) :
  all_normal
    (map (fun g => getExactClosestPointOf g coordinate) subGeometries)
  = Normal closestPoints ->
  all_defined closestPoints = Some points ->
  (forall g : Geometry, In g subGeometries ->
     exists q : list number,
       In q points /\ getExactClosestPointOf g coordinate = Normal (Some q))
  /\ (forall q : list number, In q points ->
        exists g : Geometry,
          In g subGeometries
          /\ getExactClosestPointOf g coordinate = Normal (Some q)).
Proof.
  intros Hn Hd. apply all_normal_inv in Hn. apply all_defined_inv in Hd.
  subst closestPoints. rewrite map_map in Hn.
  revert points Hn.
  induction subGeometries as [| g rest IH]; intros [| p points] Hn;
    try discriminate.
  - split; intros ? [].
  - cbn in Hn. injection Hn as Hg Hrest.
    destruct (IH points Hrest) as [IH1 IH2]. split.
    + intros g' [<- | Hin].
      * exists p. split; [now left | assumption].
      * destruct (IH1 g' Hin) as (q & Hq & Eq). exists q.
        split; [now right | assumption].
    + intros q [<- | Hin].
      * exists g. split; [now left | assumption].
      * destruct (IH2 q Hin) as (g' & Hg' & Eq). exists g'.
        split; [now right | assumption].
Qed.

(** X10: when a collection that does not contain the coordinate returns a
    point, that point is the result for one of its parts, its distance to
    the coordinate is a number, and the result for no part is strictly
    closer to the coordinate. *)
Theorem getExactClosestPointOf_closest_part (intersects : list number -> bool)
    (subGeometries : list Geometry) (coordinate p : list number) :
  intersects coordinate = false ->
  getExactClosestPointOf (Multi intersects subGeometries) coordinate
  = Normal (Some p) ->
  (exists g : Geometry,
     In g subGeometries
     /\ getExactClosestPointOf g coordinate = Normal (Some p))
  /\ euclideanDistance coordinate p <> NaN
  /\ forall g : Geometry, In g subGeometries ->
       exists q : list number,
         getExactClosestPointOf g coordinate = Normal (Some q)
         /\ (euclideanDistance coordinate q <? euclideanDistance coordinate p)%js
            = false.
Proof.
  intros Hi H. rewrite getExactClosestPointOf_Multi, Hi in H.
  destruct (all_normal _) as [closestPoints | m] eqn:Hn; [| discriminate].
  destruct (all_defined closestPoints) as [points |] eqn:Hd; [| discriminate].
  destruct (closest_points_of_parts _ _ _ _ Hn Hd) as [Hparts Hpoints].
  pose proof (minBy_spec (euclideanDistance coordinate) points) as Hmin.
  injection H as H. rewrite H in Hmin. destruct Hmin as (Hin & Hnan & Hle).
  split; [now apply Hpoints |]. split; [assumption |].
  intros g Hg. destruct (Hparts g Hg) as (q & Hq & Eq).
  exists q. split; [assumption | now apply Hle].
Qed.

(** X11: a collection without parts that does not contain the coordinate
    gives no point ([undefined]); and a collection one of whose parts
    gives no point - an empty collection among its parts, for example -
    does not return at all: the call ends in an error. *)
Theorem getExactClosestPointOf_missing_part (intersects : list number -> bool)
    (subGeometries : list Geometry) (coordinate : list number) :
  intersects coordinate = false ->
  getExactClosestPointOf (Multi intersects []) coordinate = Normal None
  /\ ((exists g : Geometry,
         In g subGeometries
         /\ getExactClosestPointOf g coordinate = Normal None) ->
      exists message : string,
        getExactClosestPointOf (Multi intersects subGeometries) coordinate
        = Throw message).
Proof.
  intros Hi. split.
  - rewrite getExactClosestPointOf_Multi, Hi. reflexivity.
  - intros (g & Hg & Eg). rewrite getExactClosestPointOf_Multi, Hi.
    destruct (all_normal _) as [closestPoints | m] eqn:Hn;
      [| eexists; reflexivity].
    apply all_normal_inv in Hn.
    assert (Hin : In None closestPoints).
    { apply (in_map (fun g => getExactClosestPointOf g coordinate)) in Hg.
      rewrite Hn, Eg in Hg. apply in_map_iff in Hg.
      destruct Hg as (x & Ex & Hx). injection Ex as ->. exact Hx. }
    rewrite (all_defined_missing _ Hin). eexists. reflexivity.
Qed.

Lemma getExactClosestPointOf_closest_part_witness :
  let outside := fun _ : list number => false in
  let near := Single outside (fun _ => [Fin 1; Fin 0]) in
  let far := Single outside (fun _ => [Fin 3; Fin 4]) in
  exists g : Geometry,
    In g [far; near]
    /\ getExactClosestPointOf g [Fin 0; Fin 0] = Normal (Some [Fin 1; Fin 0]).
Proof.
  cbv zeta.
  set (outside := fun _ : list number => false).
  set (near := Single outside (fun _ => [Fin 1; Fin 0])).
  set (far := Single outside (fun _ => [Fin 3; Fin 4])).
  assert (D1 : euclideanDistance [Fin 0; Fin 0] [Fin 3; Fin 4] = Fin 5).
  { change (euclideanDistance (map Fin [0; 0]) (map Fin [3; 4]) = Fin 5).
    rewrite euclideanDistance_finite. cbn [sum_sq_diff]. f_equal.
    replace ((0 - 3) * (0 - 3) + ((0 - 4) * (0 - 4) + 0)) with (5 * 5) by ring.
    apply sqrt_square. lra. }
  assert (D2 : euclideanDistance [Fin 0; Fin 0] [Fin 1; Fin 0] = Fin 1).
  { change (euclideanDistance (map Fin [0; 0]) (map Fin [1; 0]) = Fin 1).
    rewrite euclideanDistance_finite. cbn [sum_sq_diff]. f_equal.
    replace ((0 - 1) * (0 - 1) + ((0 - 0) * (0 - 0) + 0)) with 1 by ring.
    apply sqrt_1. }
  assert (H : getExactClosestPointOf (Multi outside [far; near]) [Fin 0; Fin 0]
              = Normal (Some [Fin 1; Fin 0])).
  { rewrite getExactClosestPointOf_Multi. cbn [outside]. unfold far, near.
    cbn [map getExactClosestPointOf outside all_normal all_defined].
    unfold minBy. cbn [fold_left]. unfold minBy_step.
    rewrite D1, D2. unfold ltb.
    destruct (Rlt_dec 1 5); [reflexivity | lra]. }
  exact (proj1 (getExactClosestPointOf_closest_part outside [far; near]
                  [Fin 0; Fin 0] [Fin 1; Fin 0] eq_refl H)).
Defined.

Lemma getExactClosestPointOf_missing_part_witness :
  getExactClosestPointOf (Multi (fun _ => false) []) [Fin 0; Fin 0] = Normal None.
Proof.
  exact (proj1 (getExactClosestPointOf_missing_part (fun _ => false) []
                  [Fin 0; Fin 0] eq_refl)).
Defined.

(** ** More on angle normalisation *)

Lemma reduced_angle_unique (v w : R) (m : Z) :
  0 <= v < 360 -> 0 <= w < 360 -> v = w + 360 * IZR m -> v = w.
Proof.
  intros Hv Hw E.
  assert (Hm : m = 0%Z).
  { assert (-1 < IZR m < 1) by (split; nra).
    assert ((-1 < m)%Z) by (apply lt_IZR; lra).
    assert ((m < 1)%Z) by (apply lt_IZR; lra). lia. }
  subst m. lra.
Qed.

(** X12: angles that differ by a whole number of turns are normalised to
    the same text. *)
Theorem normalizeAngle_periodic (finite_toString : R -> string) (a : R) (k : Z) :
  normalizeAngle finite_toString (Fin (a + 360 * IZR k))
  = normalizeAngle finite_toString (Fin a).
Proof.
  rewrite !normalizeAngle_finite. f_equal. f_equal.
  destruct (double_rem_range (a + 360 * IZR k)) as [Hv [k1 E1]].
  destruct (double_rem_range a) as [Hw [k2 E2]].
  apply (reduced_angle_unique _ _ (k + k1 - k2)); try assumption.
  rewrite E1, E2, minus_IZR, plus_IZR. ring.
Qed.

(** X13: for an input that is not a finite number, [NaN] or an infinity,
    [normalizeAngle] throws nothing and returns the text "NaN". *)
Theorem normalizeAngle_not_finite (finite_toString : R -> string) (angle : number) :
  ~ is_finite angle -> normalizeAngle finite_toString angle = "NaN".
Proof.
  destruct angle; cbn [is_finite]; intros H; [now elim H | | |]; reflexivity.
Qed.

Lemma normalizeAngle_not_finite_witness :
  normalizeAngle (fun _ => "") PInf = "NaN".
Proof.
  apply (normalizeAngle_not_finite (fun _ => "") PInf). intros H. exact H.
Defined.

(** ** Polar coordinates in binary64 arithmetic *)

Lemma nearest_even_bound (s : R) : Rabs (IZR (Binary64.nearest_even s) - s) <= / 2.
Proof.
  unfold Binary64.nearest_even. pose proof (Zfloor_bound s) as [Hl Hu].
  destruct (Rlt_dec (s - IZR (Zfloor s)) (/ 2)) as [H1 | H1].
  - apply Rabs_le. lra.
  - destruct (Rlt_dec (/ 2) (s - IZR (Zfloor s))) as [H2 | H2].
    + rewrite plus_IZR. apply Rabs_le. lra.
    + destruct (Z.even (Zfloor s)).
      * apply Rabs_le. lra.
      * rewrite plus_IZR. apply Rabs_le. lra.
Qed.

Lemma nearest_even_unique (s : R) (n : Z) :
  Rabs (s - IZR n) < / 2 -> Binary64.nearest_even s = n.
Proof.
  intros H. apply Rabs_def2 in H. destruct H as [Hu Hl].
  unfold Binary64.nearest_even.
  destruct (Rle_dec (IZR n) s) as [Hle | Hgt].
  - assert (E : Zfloor s = n) by (apply Zfloor_eq; lra).
    rewrite E. destruct (Rlt_dec (s - IZR n) (/ 2)); [reflexivity | lra].
  - assert (E : Zfloor s = (n - 1)%Z)
      by (apply Zfloor_eq; rewrite minus_IZR; lra).
    rewrite E, minus_IZR.
    destruct (Rlt_dec (s - (IZR n - 1)) (/ 2)); [lra |].
    destruct (Rlt_dec (/ 2) (s - (IZR n - 1))); [lia | lra].
Qed.

Lemma pow2_exp (z : Z) : powerRZ 2 z = exp (IZR z * ln 2).
Proof. rewrite powerRZ_Rpower by lra. reflexivity. Qed.

Lemma pow2_pos (z : Z) : 0 < powerRZ 2 z.
Proof. rewrite pow2_exp. apply exp_pos. Qed.

Lemma pow2_lt (a b : Z) : (a < b)%Z -> powerRZ 2 a < powerRZ 2 b.
Proof.
  intros H. rewrite !pow2_exp. apply exp_increasing.
  pose proof ln_lt_2 as Hl. apply IZR_lt in H. nra.
Qed.

Lemma pow2_le (a b : Z) : (a <= b)%Z -> powerRZ 2 a <= powerRZ 2 b.
Proof.
  intros H. destruct (Z.eq_dec a b) as [-> | Hne]; [lra |].
  left. apply pow2_lt. lia.
Qed.

Lemma pow2_add (a b : Z) : powerRZ 2 (a + b) = powerRZ 2 a * powerRZ 2 b.
Proof. apply powerRZ_add. lra. Qed.

Ltac pow2_eval :=
  repeat match goal with
         | |- context [powerRZ 2 ?z] =>
             let z' := eval vm_compute in z in
             progress change (powerRZ 2 z) with (powerRZ 2 z')
         end;
  unfold powerRZ;
  repeat match goal with
         | |- context [Pos.to_nat ?p] =>
             let n := eval vm_compute in (Pos.to_nat p) in
             change (Pos.to_nat p) with n
         end.

Lemma pow2_0 : powerRZ 2 0 = 1.
Proof. reflexivity. Qed.

Lemma pow2_1 : powerRZ 2 1 = 2.
Proof. pow2_eval. lra. Qed.

Lemma pow2_m1 : powerRZ 2 (-1) = / 2.
Proof. pow2_eval. f_equal. lra. Qed.

Lemma binade (x : R) :
  x <> 0 ->
  powerRZ 2 (Zfloor (ln (Rabs x) / ln 2)) <= Rabs x
  < powerRZ 2 (Zfloor (ln (Rabs x) / ln 2) + 1).
Proof.
  intros Hx. pose proof (Rabs_pos_lt x Hx) as Hpos.
  pose proof ln_lt_2 as Hl.
  pose proof (Zfloor_bound (ln (Rabs x) / ln 2)) as [Hlo Hhi].
  pose proof (exp_ln _ Hpos) as Ex.
  assert (E : ln (Rabs x) / ln 2 * ln 2 = ln (Rabs x)) by (field; lra).
  set (e := Zfloor (ln (Rabs x) / ln 2)) in *.
  rewrite !pow2_exp, plus_IZR. split.
  - rewrite <- Ex. destruct Hlo as [Hlo | Hlo].
    + left. apply exp_increasing. rewrite <- E.
      apply Rmult_lt_compat_r; lra.
    + right. f_equal. rewrite Hlo. exact E.
  - rewrite <- Ex. apply exp_increasing. rewrite <- E.
    apply Rmult_lt_compat_r; lra.
Qed.

Lemma exponent_eq (x : R) (e : Z) :
  (-1022 <= e)%Z -> powerRZ 2 e <= Rabs x < powerRZ 2 (e + 1) ->
  Binary64.exponent x = e.
Proof.
  intros He [Hlo Hhi]. pose proof ln_lt_2 as Hl.
  assert (Hpos : 0 < Rabs x) by (pose proof (pow2_pos e); lra).
  pose proof (exp_ln _ Hpos) as Ex.
  rewrite pow2_exp in Hlo. rewrite pow2_exp, plus_IZR in Hhi.
  assert (H1 : IZR e * ln 2 <= ln (Rabs x)).
  { destruct (Rle_dec (IZR e * ln 2) (ln (Rabs x))) as [| Hn]; [assumption |].
    exfalso. apply Rnot_le_lt, exp_increasing in Hn. lra. }
  assert (H2 : ln (Rabs x) < (IZR e + 1) * ln 2)
    by (apply exp_lt_inv; rewrite Ex; exact Hhi).
  assert (E : ln (Rabs x) / ln 2 * ln 2 = ln (Rabs x)) by (field; lra).
  assert (Ef : Zfloor (ln (Rabs x) / ln 2) = e).
  { apply Zfloor_eq. split.
    - apply (Rmult_le_reg_r (ln 2)); [lra |]. rewrite E. exact H1.
    - apply (Rmult_lt_reg_r (ln 2)); [lra |]. rewrite E. exact H2. }
  unfold Binary64.exponent. rewrite Ef. lia.
Qed.

Lemma round_in_binade (x : R) (e : Z) :
  (-1022 <= e <= 1022)%Z -> powerRZ 2 e <= Rabs x < powerRZ 2 (e + 1) ->
  Binary64.round x
  = Fin (IZR (Binary64.nearest_even (x * powerRZ 2 (52 - e))) * powerRZ 2 (e - 52))
  /\ Rabs (IZR (Binary64.nearest_even (x * powerRZ 2 (52 - e))) * powerRZ 2 (e - 52) - x)
     <= powerRZ 2 (e - 53).
Proof.
  intros He Hb. pose proof (pow2_pos e) as Pe.
  assert (Hx : x <> 0) by (intros ->; rewrite Rabs_R0 in Hb; lra).
  pose proof (nearest_even_bound (x * powerRZ 2 (52 - e))) as Hn.
  pose proof (pow2_pos (e - 52)) as Hq.
  assert (Es : x * powerRZ 2 (52 - e) * powerRZ 2 (e - 52) = x).
  { rewrite Rmult_assoc, <- (pow2_add (52 - e) (e - 52)).
    replace (52 - e + (e - 52))%Z with 0%Z by lia. rewrite pow2_0. ring. }
  assert (Hq2 : / 2 * powerRZ 2 (e - 52) = powerRZ 2 (e - 53)).
  { replace (e - 53)%Z with (-1 + (e - 52))%Z by lia.
    rewrite (pow2_add (-1) (e - 52)), pow2_m1. reflexivity. }
  set (s := x * powerRZ 2 (52 - e)) in *.
  set (n := Binary64.nearest_even s) in *.
  set (q := powerRZ 2 (e - 52)) in *.
  assert (Herr : Rabs (IZR n * q - x) <= powerRZ 2 (e - 53)).
  { replace (IZR n * q - x) with ((IZR n - s) * q) by (rewrite <- Es at 1; ring).
    rewrite Rabs_mult, (Rabs_pos_eq q), <- Hq2 by lra.
    apply Rmult_le_compat_r; lra. }
  split; [| exact Herr].
  unfold Binary64.round. destruct (Req_dec_T x 0) as [| _]; [contradiction |].
  rewrite (exponent_eq x e) by (lia || exact Hb).
  cbv zeta. fold s. fold n. fold q.
  destruct (Rlt_dec (Rabs (IZR n * q)) (powerRZ 2 1024)) as [| Hn'];
    [reflexivity |].
  exfalso. apply Hn'.
  assert (H1 : Rabs (IZR n * q) <= Rabs x + powerRZ 2 (e - 53)).
  { replace (IZR n * q) with ((IZR n * q - x) + x) by lra.
    eapply Rle_trans; [apply Rabs_triang |]. lra. }
  pose proof (pow2_lt (e - 53) (e + 1) ltac:(lia)) as H2.
  assert (H3 : powerRZ 2 (e + 1) + powerRZ 2 (e + 1) = powerRZ 2 (e + 2)).
  { replace (e + 2)%Z with (1 + (e + 1))%Z by lia.
    rewrite (pow2_add 1 (e + 1)), pow2_1. ring. }
  pose proof (pow2_le (e + 2) 1024 ltac:(lia)) as H4. lra.
Qed.

Lemma round_relative (x : R) :
  powerRZ 2 (-1022) <= Rabs x < powerRZ 2 1023 ->
  exists r : R, Binary64.round x = Fin r /\ Rabs (r - x) <= Rabs x * powerRZ 2 (-53).
Proof.
  intros [Hlo Hhi].
  assert (Hx : x <> 0).
  { intros ->. rewrite Rabs_R0 in Hlo. pose proof (pow2_pos (-1022)). lra. }
  pose proof (binade x Hx) as Hb.
  set (e := Zfloor (ln (Rabs x) / ln 2)) in Hb.
  assert (He : (-1022 <= e <= 1022)%Z).
  { split.
    - destruct (Z_le_gt_dec (-1022) e); [assumption |]. exfalso.
      pose proof (pow2_le (e + 1) (-1022) ltac:(lia)). lra.
    - destruct (Z_le_gt_dec e 1022); [assumption |]. exfalso.
      pose proof (pow2_le 1023 e ltac:(lia)). lra. }
  destruct (round_in_binade x e He Hb) as [Hr Herr].
  eexists. split; [exact Hr |].
  eapply Rle_trans; [exact Herr |].
  replace (e - 53)%Z with (e + -53)%Z by lia. rewrite (pow2_add e (-53)).
  apply Rmult_le_compat_r; [left; apply pow2_pos | apply Hb].
Qed.

Lemma round_to (x : R) (e n : Z) :
  (-1022 <= e <= 1022)%Z -> powerRZ 2 e <= Rabs x < powerRZ 2 (e + 1) ->
  Rabs (x * powerRZ 2 (52 - e) - IZR n) < / 2 ->
  Binary64.round x = Fin (IZR n * powerRZ 2 (e - 52)).
Proof.
  intros He Hb Hn. destruct (round_in_binade x e He Hb) as [-> _].
  rewrite (nearest_even_unique _ n Hn). reflexivity.
Qed.

Lemma round_neg (x : R) :
  -1e10 <= x <= -1e-50 ->
  exists r : R, Binary64.round x = Fin r /\ 1.001 * x <= r <= 0.999 * x.
Proof.
  intros H. destruct (round_relative x) as (r & Hr & He).
  - rewrite Rabs_left by lra. split.
    + eapply Rle_trans; [apply (pow2_le (-1022) (-200)); lia |].
      pow2_eval. lra.
    + eapply Rlt_le_trans; [| apply (pow2_le 200 1023); lia].
      pow2_eval. lra.
  - exists r. split; [assumption |]. rewrite (Rabs_left x) in He by lra.
    assert (P : powerRZ 2 (-53) <= 0.001) by (pow2_eval; lra).
    pose proof (pow2_pos (-53)) as P0.
    unfold Rabs in He. destruct (Rcase_abs (r - x)); nra.
Qed.

Lemma round_pos (x : R) :
  1e-50 <= x <= 1e10 ->
  exists r : R, Binary64.round x = Fin r /\ 0.999 * x <= r <= 1.001 * x.
Proof.
  intros H. destruct (round_relative x) as (r & Hr & He).
  - rewrite Rabs_pos_eq by lra. split.
    + eapply Rle_trans; [apply (pow2_le (-1022) (-200)); lia |].
      pow2_eval. lra.
    + eapply Rle_lt_trans; [| apply (pow2_lt 200 1023); lia].
      pow2_eval. lra.
  - exists r. split; [assumption |]. rewrite (Rabs_pos_eq x) in He by lra.
    assert (P : powerRZ 2 (-53) <= 0.001) by (pow2_eval; lra).
    pose proof (pow2_pos (-53)) as P0.
    unfold Rabs in He. destruct (Rcase_abs (r - x)); nra.
Qed.

Lemma round_near_one (u : R) : 0 <= u <= 1e-20 -> Binary64.round (1 + u) = Fin 1.
Proof.
  intros H. rewrite (round_to (1 + u) 0 (2 ^ 52)).
  - f_equal. pow2_eval. lra.
  - lia.
  - rewrite Rabs_pos_eq by lra. pow2_eval. lra.
  - pow2_eval. apply Rabs_def1; lra.
Qed.

Lemma round_near_360 (b : R) : -2.5e-14 <= b <= 0 -> Binary64.round (b + 360) = Fin 360.
Proof.
  intros H. rewrite (round_to (b + 360) 8 6333186975989760).
  - f_equal. pow2_eval. lra.
  - lia.
  - rewrite Rabs_pos_eq by lra. pow2_eval. lra.
  - pow2_eval. apply Rabs_def1; lra.
Qed.

Lemma round_one : Binary64.round 1 = Fin 1.
Proof.
  rewrite <- (round_near_one 0) by lra. f_equal. lra.
Qed.

Lemma sin_small : 1e-17 < sin 2e-17.
Proof.
  pose proof PI_bounds as [Pl Pu].
  pose proof (SIN 2e-17 ltac:(lra) ltac:(lra)) as [Hl _].
  unfold sin_lb, sin_approx, sum_f_R0, sin_term in Hl.
  simpl in Hl. lra.
Qed.

Lemma atan_small : 5e-18 < atan 1e-17 < 2e-17.
Proof.
  pose proof PI_bounds as [Pl Pu].
  split.
  - rewrite <- (atan_tan 5e-18) by (split; lra).
    apply atan_increasing.
    pose proof (sin_lt_x 5e-18 ltac:(lra)) as Hs.
    assert (Hc : 1 / 2 <= cos 5e-18)
      by (rewrite <- cos_PI3; apply cos_decr_1; lra).
    unfold tan.
    apply (Rmult_lt_reg_r (cos 5e-18)); [lra |].
    replace (sin 5e-18 / cos 5e-18 * cos 5e-18) with (sin 5e-18)
      by (field; lra).
    nra.
  - rewrite <- (atan_tan 2e-17) by (split; lra).
    apply atan_increasing.
    pose proof sin_small as Hs.
    assert (Hc : 0 < cos 2e-17) by (apply cos_gt_0; lra).
    pose proof (COS_bound 2e-17) as [_ Hc1].
    unfold tan.
    apply Rlt_le_trans with (sin 2e-17); [exact Hs |].
    apply (Rmult_le_reg_r (cos 2e-17)); [exact Hc |].
    replace (sin 2e-17 / cos 2e-17 * cos 2e-17) with (sin 2e-17)
      by (field; lra).
    nra.
Qed.

(** C7: in binary64 arithmetic [toPolar] returns the angle [360], which is
    not in [[0, 360)], for points just below the positive x axis.  For
    every [y] between [-2e-16] and [-1e-25] (the number written [-1e-17]
    is one) and every implementation of [Math.atan2] whose value at
    [(y, 1)] is within a factor of two of [y], [toPolar [1, y]] is
    [[1, 360]]: the distance rounds to 1, the angle in degrees is
    negative, so 360 is added to it, and the sum is nearer to 360 than to
    the binary64 value below 360. *)
Theorem toPolar_rounds_to_360 :
  (exists y0 : R,
     Binary64.round (-1e-17) = Fin y0 /\ -2e-16 <= y0 <= -1e-25)
  /\ forall (atan2 : number -> number -> number) (y t : R),
       -2e-16 <= y <= -1e-25 ->
       atan2 (Fin y) (Fin 1) = Fin t -> 2 * y <= t <= y / 2 ->
       Binary64.toPolar atan2 (Fin 1, Fin y) = (Fin 1, Fin 360).
Proof.
  split.
  - destruct (round_neg (-1e-17)) as (r & Hr & Hb); [lra |].
    exists r. split; [exact Hr | lra].
  - intros atan2 y t Hy Ha Ht.
    pose proof PI_bounds as [Pl Pu].
    destruct (round_pos (y * y)) as (u & Hu & Hub); [nra |].
    destruct (round_neg (t * 180)) as (v1 & Hv1 & Hv1b); [lra |].
    destruct (round_pos PI) as (p & Hp & Hpb); [lra |].
    assert (Hq : v1 / 3.138 <= v1 / p <= v1 / 3.146).
    { assert (Hip : / 3.146 <= / p <= / 3.138)
        by (split; apply Rinv_le_contravar; lra).
      unfold Rdiv. nra. }
    destruct (round_neg (v1 / p)) as (v2 & Hv2 & Hv2b); [lra |].
    assert (E1 : Binary64.mul (Fin 1) (Fin 1) = Fin 1).
    { unfold Binary64.mul. cbn [mul Binary64.rounded].
      rewrite Rmult_1_r. apply round_one. }
    assert (E2 : Binary64.mul (Fin y) (Fin y) = Fin u) by exact Hu.
    assert (E3 : Binary64.add (Fin 1) (Fin u) = Fin 1).
    { unfold Binary64.add. cbn [add Binary64.rounded].
      apply round_near_one. nra. }
    assert (E4 : Binary64.sqrt (Fin 1) = Fin 1).
    { unfold Binary64.sqrt. rewrite sqrt_fin by lra.
      cbn [Binary64.rounded]. rewrite sqrt_1. apply round_one. }
    assert (E5 : Binary64.mul (Fin t) (Fin 180) = Fin v1) by exact Hv1.
    assert (E6 : Binary64.PI = Fin p) by exact Hp.
    assert (E7 : Binary64.div (Fin v1) (Fin p) = Fin v2).
    { unfold Binary64.div. rewrite div_fin by lra. exact Hv2. }
    assert (E8 : Binary64.add (Fin v2) (Fin 360) = Fin 360).
    { unfold Binary64.add. cbn [add Binary64.rounded].
      apply round_near_360. lra. }
    unfold Binary64.toPolar. cbn [fst snd].
    rewrite E1, E2, E3, E4.
    unfold gtb, ltb at 1. destruct (Rlt_dec 0 1); [| lra].
    rewrite Ha, E5, E6, E7.
    unfold ltb. destruct (Rlt_dec v2 0); [| lra].
    rewrite E8. reflexivity.
Qed.

Lemma toPolar_rounds_to_360_witness :
  Binary64.toPolar Math.atan2 (Fin 1, Fin (-1e-17)) = (Fin 1, Fin 360).
Proof.
  apply (proj2 toPolar_rounds_to_360 Math.atan2 (-1e-17)
           (Math.Ratan2 (-1e-17) 1)).
  - lra.
  - reflexivity.
  - unfold Math.Ratan2. destruct (Rlt_dec 0 1); [| lra].
    replace (-1e-17 / 1) with (- (1e-17)) by lra.
    rewrite atan_opp. pose proof atan_small. lra.
Defined.

(** ** More on polar coordinates *)

Lemma sqrt_sum_squares_zero (x y : R) :
  sqrt (x * x + y * y) = 0 <-> x = 0 /\ y = 0.
Proof.
  split.
  - intros H. apply sqrt_eq_0 in H; [| nra]. split; nra.
  - intros [-> ->]. replace (0 * 0 + 0 * 0) with 0 by ring. apply sqrt_0.
Qed.

(** X14: over exact real arithmetic (no rounding, underflow or overflow),
    [toPolar] returns [[0, 0]] exactly for the origin and for a pair with
    a [NaN] entry: a [NaN] in the input is not passed on but read as the
    origin. *)
Theorem toPolar_zero_iff (x y : number) :
  toPolar (x, y) = (Fin 0, Fin 0)
  <-> (x = Fin 0 /\ y = Fin 0) \/ x = NaN \/ y = NaN.
Proof.
  destruct x as [a | | |], y as [b | | |];
    try (split; [intros _; now auto | intros _; reflexivity]);
    try (split; [cbn; discriminate
                | intros [[? ?] | [? | ?]]; discriminate]).
  - rewrite toPolar_finite.
    pose proof (sqrt_pos (a * a + b * b)) as Hp.
    pose proof (sqrt_sum_squares_zero a b) as Hz.
    destruct (Rlt_dec 0 (sqrt (a * a + b * b))) as [Hd | Hd]; split.
    + intros [= E _]. lra.
    + intros [[[= ->] [= ->]] | [? | ?]]; try discriminate.
      destruct Hz as [_ Hz]. specialize (Hz (conj eq_refl eq_refl)). lra.
    + intros _. left. assert (E : sqrt (a * a + b * b) = 0) by lra.
      apply Hz in E. destruct E as [-> ->]. split; reflexivity.
    + intros _. reflexivity.
Qed.

(** X15: for a pair of finite numbers the distance [toPolar] returns is
    the Euclidean distance of the pair, as a two-element array, from the
    origin. *)
Theorem toPolar_distance (x y : R) :
  (toPolar (Fin x, Fin y)).[0]
  = euclideanDistance (pair_array (Fin x, Fin y)) [Fin 0; Fin 0].
Proof.
  change (pair_array (Fin x, Fin y)) with (map Fin [x; y]).
  change [Fin 0; Fin 0] with (map Fin [0; 0]).
  rewrite euclideanDistance_finite. cbn [sum_sq_diff].
  replace ((x - 0) * (x - 0) + ((y - 0) * (y - 0) + 0)) with (x * x + y * y)
    by ring.
  rewrite toPolar_finite.
  destruct (Rlt_dec 0 (sqrt (x * x + y * y))) as [Hd | Hd]; [reflexivity |].
  cbn [fst]. f_equal. pose proof (sqrt_pos (x * x + y * y)). lra.
Qed.

(** ** More on the flat-Earth coordinate system *)

(** X16: on a well-formed configuration (convention ['neu'] or ['nwu'],
    origin latitude strictly between -90 and 90, physically valid
    ellipsoid) [toLonLat] sends the planar point [(0, 0)] to the origin. *)
Theorem toLonLat_zero (lon0 lat0 ang : R) (type : string)
    (el : EllipsoidModel) :
  valid_type type -> Rabs lat0 < 90 -> physically_valid el ->
  exists cs : FlatEarthCoordinateSystem coordinate,
    constructor (Fin lon0, Fin lat0) (Fin ang) type el = Normal cs
    /\ toLonLat cs (Fin 0, Fin 0) = (Fin lon0, Fin lat0).
Proof.
  intros Ht Hl Hel.
  destruct (constructor_well_formed lon0 lat0 ang type el Ht Hl Hel)
    as (cs & R1 & R2 & m & Hc & Hf & H1 & H2 & Hm).
  exists cs. split; [exact Hc |].
  pose proof piOver180_pos as Hk.
  rewrite (toLonLat_finite cs _ _ _ _ _ _ _ 0 0 Hf) by (try assumption; lra).
  f_equal; f_equal; field; split; lra.
Qed.

Lemma toLonLat_zero_witness :
  exists cs : FlatEarthCoordinateSystem coordinate,
    constructor (Fin 19, Fin 47) (Fin 30) "neu" WGS84 = Normal cs
    /\ toLonLat cs (Fin 0, Fin 0) = (Fin 19, Fin 47).
Proof.
  apply (toLonLat_zero 19 47 30 "neu" WGS84).
  - left. reflexivity.
  - exact Rabs_47_lt_90.
  - exact WGS84_physically_valid.
Defined.

Lemma planar_distance_finite (cs : FlatEarthCoordinateSystem coordinate)
    (lon0 lat0 theta k R1 R2 m lon1 lat1 lon2 lat2 : R) :
  finite_fields cs lon0 lat0 theta k R1 R2 m -> m * m = 1 ->
  euclideanDistance (pair_array (fromLonLat cs (Fin lon1, Fin lat1)))
                    (pair_array (fromLonLat cs (Fin lon2, Fin lat2)))
  = Fin (sqrt (((lat1 - lat2) * k * R1) * ((lat1 - lat2) * k * R1)
               + ((lon1 - lon2) * k * R2) * ((lon1 - lon2) * k * R2))).
Proof.
  intros Hf Hm.
  rewrite !(fromLonLat_finite _ _ _ _ _ _ _ _ _ _ Hf).
  unfold pair_array. cbn [fst snd].
  match goal with
  | |- euclideanDistance [Fin ?a; Fin ?b] [Fin ?c; Fin ?d] = _ =>
      change (euclideanDistance (map Fin [a; b]) (map Fin [c; d])
              = Fin (sqrt (((lat1 - lat2) * k * R1) * ((lat1 - lat2) * k * R1)
                           + ((lon1 - lon2) * k * R2) * ((lon1 - lon2) * k * R2))))
  end.
  rewrite euclideanDistance_finite. cbn [sum_sq_diff]. f_equal. f_equal.
  pose proof (sin2_cos2 theta) as Hsc. unfold Rsqr in Hsc.
  set (c := cos theta) in *. set (s := sin theta) in *.
  set (n := (lat1 - lat2) * k * R1). set (e := (lon1 - lon2) * k * R2).
  replace ((lat1 - lat0) * k * R1 * c + (lon1 - lon0) * k * R2 * s
           - ((lat2 - lat0) * k * R1 * c + (lon2 - lon0) * k * R2 * s))
    with (n * c + e * s) by (unfold n, e; ring).
  replace (((lon1 - lon0) * k * R2 * c - (lat1 - lat0) * k * R1 * s) * m
           - ((lon2 - lon0) * k * R2 * c - (lat2 - lat0) * k * R1 * s) * m)
    with ((e * c - n * s) * m) by (unfold n, e; ring).
  replace ((n * c + e * s) * (n * c + e * s)
           + ((e * c - n * s) * m * ((e * c - n * s) * m) + 0))
    with ((n * n + e * e) * (s * s + c * c)
          + (m * m - 1) * ((e * c - n * s) * (e * c - n * s))) by ring.
  rewrite Hsc, Hm. ring.
Qed.

(** X17: over exact real arithmetic (no rounding, underflow or overflow),
    the planar distance between the images of two points does not depend
    on the angle nor on the axis convention of the coordinate system: on
    an ellipsoid with a finite semi-major axis [a] and squared
    eccentricity [e2 < 1] it is the square root of
    [(dlat * k * r1)^2 + (dlon * k * r2)^2], with [k = PI / 180] and [r1],
    [r2] the two scale factors at the origin latitude. *)
Theorem planar_distance_independent_of_angle (lon0 lat0 ang : R)
    (type : string) (el : EllipsoidModel) (a e2 lon1 lat1 lon2 lat2 : R) :
  valid_type type ->
  semiMajorAxis el = Fin a -> eccentricitySquared el = Fin e2 -> e2 < 1 ->
  exists cs : FlatEarthCoordinateSystem coordinate,
    constructor (Fin lon0, Fin lat0) (Fin ang) type el = Normal cs
    /\ euclideanDistance (pair_array (fromLonLat cs (Fin lon1, Fin lat1)))
                         (pair_array (fromLonLat cs (Fin lon2, Fin lat2)))
       = Fin (sqrt (((lat1 - lat2) * (PI / 180) * r1_at a e2 lat0)
                    * ((lat1 - lat2) * (PI / 180) * r1_at a e2 lat0)
                    + ((lon1 - lon2) * (PI / 180) * r2_at a e2 lat0)
                      * ((lon1 - lon2) * (PI / 180) * r2_at a e2 lat0))).
Proof.
  intros Ht Ha He Hlt.
  destruct (yMul_finite type) as (m & Hm & Hmm).
  pose proof (constructor_finite lon0 lat0 ang type el a e2 Ht Ha He Hlt) as Hc.
  eexists. split; [exact Hc |].
  apply (planar_distance_finite _ lon0 lat0 (ang * PI / 180) (PI / 180) _ _ m);
    [| exact Hmm].
  unfold finite_fields. cbn. repeat split; try reflexivity. exact Hm.
Qed.

Lemma planar_distance_independent_of_angle_witness :
  exists cs : FlatEarthCoordinateSystem coordinate,
    constructor (Fin 19, Fin 47) (Fin 30) "nwu" WGS84 = Normal cs
    /\ euclideanDistance (pair_array (fromLonLat cs (Fin 19, Fin 48)))
                         (pair_array (fromLonLat cs (Fin 20, Fin 47)))
       = Fin (sqrt (((48 - 47) * (PI / 180) * r1_at 6378137 WGS84_e2 47)
                    * ((48 - 47) * (PI / 180) * r1_at 6378137 WGS84_e2 47)
                    + ((19 - 20) * (PI / 180) * r2_at 6378137 WGS84_e2 47)
                      * ((19 - 20) * (PI / 180) * r2_at 6378137 WGS84_e2 47))).
Proof.
  destruct WGS84_fields as [Ha He].
  assert (Hlt : WGS84_e2 < 1) by (pose proof WGS84_e2_bounds; lra).
  exact (planar_distance_independent_of_angle 19 47 30 "nwu" WGS84
           6378137 WGS84_e2 19 48 20 47 (or_intror eq_refl) Ha He Hlt).
Defined.

Lemma full_turn_in_radians (ang : R) (k : nat) :
  (ang + 360 * INR k) * PI / 180 = ang * PI / 180 + 2 * INR k * PI.
Proof. field. Qed.

Lemma conversions_depend_on_rotation (cs1 cs2 : FlatEarthCoordinateSystem coordinate)
    (t1 t2 : R) :
  _origin cs1 = _origin cs2 ->
  _piOver180 cs1 = _piOver180 cs2 ->
  _r1 cs1 = _r1 cs2 ->
  _r2OverCosOriginLatInRadians cs1 = _r2OverCosOriginLatInRadians cs2 ->
  _yMul cs1 = _yMul cs2 ->
  _angle cs1 = Fin t1 -> _angle cs2 = Fin t2 ->
  cos t1 = cos t2 -> sin t1 = sin t2 ->
  forall p : coordinate,
    fromLonLat cs1 p = fromLonLat cs2 p /\ toLonLat cs1 p = toLonLat cs2 p.
Proof.
  intros Ho Hk H1 H2 Hm Ha1 Ha2 Hc Hs p.
  unfold fromLonLat, toLonLat, Coordinate_rotate.
  rewrite Ho, Hk, H1, H2, Hm, Ha1, Ha2.
  cbn [neg Math.cos Math.sin].
  rewrite !cos_neg, !sin_neg, Hc, Hs. split; reflexivity.
Qed.

(** X18: angles that differ by a whole number of turns define the same
    coordinate system: the instances built with [angle] and with
    [angle + 360 * k] convert every pair, in both directions, to the same
    result. *)
Theorem constructor_angle_periodic (origin : coordinate) (ang : R) (k : nat)
    (type : string) (el : EllipsoidModel) :
  valid_type type ->
  exists cs1 cs2 : FlatEarthCoordinateSystem coordinate,
    constructor origin (Fin ang) type el = Normal cs1
    /\ constructor origin (Fin (ang + 360 * INR k)) type el = Normal cs2
    /\ forall p : coordinate,
         fromLonLat cs2 p = fromLonLat cs1 p /\ toLonLat cs2 p = toLonLat cs1 p.
Proof.
  intros Ht.
  destruct (constructor_fields origin ang type el _
              (constructor_valid_type origin (Fin ang) type el Ht))
    as (_ & Ho1 & Ha1 & Hk1 & Hm1).
  destruct (constructor_fields origin (ang + 360 * INR k) type el _
              (constructor_valid_type origin (Fin (ang + 360 * INR k)) type el Ht))
    as (_ & Ho2 & Ha2 & Hk2 & Hm2).
  eexists _, _. split; [apply constructor_valid_type, Ht |].
  split; [apply constructor_valid_type, Ht |].
  apply (conversions_depend_on_rotation _ _
           ((ang + 360 * INR k) * PI / 180) (ang * PI / 180));
    try reflexivity.
  - exact Ha2.
  - exact Ha1.
  - rewrite full_turn_in_radians. apply cos_period.
  - rewrite full_turn_in_radians. apply sin_period.
Qed.

Lemma constructor_angle_periodic_witness :
  exists cs1 cs2 : FlatEarthCoordinateSystem coordinate,
    constructor (Fin 19, Fin 47) (Fin 30) "neu" WGS84 = Normal cs1
    /\ constructor (Fin 19, Fin 47) (Fin (30 + 360 * INR 1)) "neu" WGS84
       = Normal cs2
    /\ forall p : coordinate,
         fromLonLat cs2 p = fromLonLat cs1 p /\ toLonLat cs2 p = toLonLat cs1 p.
Proof.
  apply (constructor_angle_periodic (Fin 19, Fin 47) 30 1 "neu" WGS84).
  left. reflexivity.
Defined.

Lemma Rpower_1_base (y : R) : Rpower 1 y = 1.
Proof. unfold Rpower. rewrite ln_1, Rmult_0_r. apply exp_0. Qed.

(** X19: on a perfect sphere (inverse flattening [Infinity]) of radius [a]
    the north-south scale factor is the radius and the east-west one is
    the radius times the cosine of the origin latitude, so that at angle 0
    a point is sent to the arc lengths
    [(dlat * PI / 180 * a, dlon * PI / 180 * a * cos lat0)] (the second
    one negated under ['nwu']). *)
Theorem sphere_scale_factors (lon0 lat0 a lon lat : R) (type : string) :
  valid_type type ->
  exists cs : FlatEarthCoordinateSystem coordinate,
    constructor (Fin lon0, Fin lat0) (Fin 0) type
      (makeEllipsoidModel (Fin a) PInf) = Normal cs
    /\ _r1 cs = Fin a
    /\ _r2OverCosOriginLatInRadians cs = Fin (a * cos (lat0 * (PI / 180)))
    /\ fromLonLat cs (Fin lon, Fin lat)
       = (Fin ((lat - lat0) * (PI / 180) * a),
          (Fin ((lon - lon0) * (PI / 180) * (a * cos (lat0 * (PI / 180))))
           * _yMul cs)%js).
Proof.
  intros Ht.
  assert (He : eccentricitySquared (makeEllipsoidModel (Fin a) PInf) = Fin 0).
  { rewrite makeEllipsoidModel_sphere. cbn [eccentricitySquared].
    f_equal. ring. }
  assert (Ha : semiMajorAxis (makeEllipsoidModel (Fin a) PInf) = Fin a)
    by reflexivity.
  pose proof (constructor_finite lon0 lat0 0 type _ a 0 Ht Ha He ltac:(lra))
    as Hc.
  assert (Hx : x_at 0 lat0 = 1) by (unfold x_at; ring).
  assert (E1 : r1_at a 0 lat0 = a).
  { unfold r1_at. rewrite Hx, Rpower_1_base. field. }
  assert (E2 : r2_at a 0 lat0 = a * cos (lat0 * (PI / 180))).
  { unfold r2_at. rewrite Hx, sqrt_1. field. }
  rewrite E1, E2 in Hc.
  eexists. split; [exact Hc |]. split; [reflexivity |]. split; [reflexivity |].
  destruct (yMul_finite type) as (m & Hm & _).
  match goal with |- fromLonLat ?c _ = _ => set (cs := c) end.
  assert (Hf : finite_fields cs lon0 lat0 (0 * PI / 180) (PI / 180) a
                 (a * cos (lat0 * (PI / 180))) m)
    by (unfold finite_fields, cs; cbn; repeat split; try reflexivity; exact Hm).
  rewrite (fromLonLat_finite cs _ _ _ _ _ _ _ lon lat Hf).
  replace (0 * PI / 180) with 0 by field. rewrite cos_0, sin_0.
  unfold cs at 1. cbn [_yMul]. rewrite Hm. cbn [mul].
  f_equal; f_equal; ring.
Qed.

Lemma sphere_scale_factors_witness :
  exists cs : FlatEarthCoordinateSystem coordinate,
    constructor (Fin 19, Fin 47) (Fin 0) "neu"
      (makeEllipsoidModel (Fin 6371000) PInf) = Normal cs
    /\ _r1 cs = Fin 6371000.
Proof.
  destruct (sphere_scale_factors 19 47 6371000 19 48 "neu" (or_introl eq_refl))
    as (cs & Hc & H1 & _).
  exists cs. split; assumption.
Defined.

(** X20: over exact real arithmetic (no rounding, underflow or overflow),
    for a positive semi-major axis [a] and an inverse flattening above 1
    the model the factory returns is a physically valid ellipsoid:
    its semi-minor axis [b] is positive, [b <= meanRadius <= a], and its
    squared eccentricity is [1 - (b / a)^2], which lies in [0, 1). *)
Theorem makeEllipsoidModel_physically_valid (a i : R) :
  0 < a -> 1 < i ->
  let m := makeEllipsoidModel (Fin a) (Fin i) in
  physically_valid m
  /\ exists b mean e2 : R,
       semiMinorAxis m = Fin b /\ meanRadius m = Fin mean
       /\ eccentricitySquared m = Fin e2
       /\ 0 < b <= mean /\ mean <= a
       /\ e2 = 1 - (b / a) * (b / a)
       /\ 0 <= e2 < 1.
Proof.
  intros Ha Hi. cbv zeta. rewrite makeEllipsoidModel_finite by lra.
  assert (Hf : 0 < 1 / i < 1).
  { split.
    - apply Rdiv_lt_0_compat; lra.
    - apply (Rmult_lt_reg_r i); [lra |]. replace (1 / i * i) with 1 by (field; lra).
      lra. }
  set (f := 1 / i) in *.
  assert (He : 0 <= f * (2 - f) < 1) by (split; nra).
  split.
  - exists a, (f * (2 - f)). repeat split; try reflexivity; lra.
  - exists (a * (1 - f)), ((a * (1 - f) + a * 2) / 3), (f * (2 - f)).
    cbn [semiMinorAxis meanRadius eccentricitySquared].
    repeat split; try reflexivity; try lra; try nra.
    field. lra.
Qed.

Lemma makeEllipsoidModel_physically_valid_witness :
  physically_valid (makeEllipsoidModel (Fin 6378137) (Fin 298.257223563)).
Proof.
  assert (H1 : 0 < 6378137) by lra.
  assert (H2 : 1 < 298.257223563) by lra.
  exact (proj1 (makeEllipsoidModel_physically_valid 6378137 298.257223563 H1 H2)).
Defined.

(** ** Arrays with missing entries *)

Lemma add_nan_r (x : number) : (x + NaN)%js = NaN.
Proof. destruct x; reflexivity. Qed.

Lemma fromLonLat_missing_latitude (cs : FlatEarthCoordinateSystem coordinate)
    (x : number) :
  fromLonLat cs (x, NaN) = (NaN, NaN).
Proof.
  unfold fromLonLat, Coordinate_rotate. cbn [fst snd sub add].
  rewrite !mul_nan_l, !add_nan_r, !mul_nan_l. reflexivity.
Qed.

Lemma toLonLat_missing_second (cs : FlatEarthCoordinateSystem coordinate)
    (x : number) :
  toLonLat cs (x, NaN) = (NaN, NaN).
Proof.
  unfold toLonLat, Coordinate_rotate. cbn [fst snd].
  rewrite !mul_nan_l. unfold sub. cbn [neg].
  rewrite !add_nan_r. cbn [add div]. reflexivity.
Qed.

(** X21: when the array passed to [fromLonLat] or [toLonLat] has fewer
    than two entries, the method throws nothing and returns a new array
    whose two entries are both [NaN]. *)
Theorem conversions_of_short_array (this : FlatEarthCoordinateSystem Heap.loc)
    (coords : Heap.loc) (h : Heap.heap) (c o : list Heap.value) :
  h !! coords = Some c ->
  h !! _origin this = Some o ->
  (length c < 2)%nat ->
  (exists (l : Heap.loc) (h' : Heap.heap),
     Heap.fromLonLat this coords h = Some (l, h')
     /\ h' !! l = Some [Heap.VNum NaN; Heap.VNum NaN])
  /\ (exists (l : Heap.loc) (h' : Heap.heap),
        Heap.toLonLat this coords h = Some (l, h')
        /\ h' !! l = Some [Heap.VNum NaN; Heap.VNum NaN]).
Proof.
  intros Hc Ho Hlen.
  assert (Es : exists x : number, Heap.as_coordinate c = (x, NaN)).
  { unfold Heap.as_coordinate.
    destruct c as [| v0 [| v1 rest]]; cbn in Hlen; try lia;
      eexists; reflexivity. }
  destruct Es as [x Ex]. split.
  - eexists _, _. split; [apply (HeapFacts.fromLonLat_run _ _ _ _ _ Hc Ho) |].
    rewrite lookup_insert_eq, Ex, fromLonLat_missing_latitude. reflexivity.
  - pose proof (HeapFacts.toLonLat_run _ _ _ _ _ Hc Ho) as Hrun.
    cbv zeta in Hrun. eexists _, _. split; [exact Hrun |].
    rewrite lookup_insert_eq, Ex, toLonLat_missing_second. reflexivity.
Qed.

Lemma conversions_of_short_array_witness :
  let this := _precalculate 2%positive (Fin 47) (Fin 0) WGS84 "neu" in
  let c := [Heap.VNum (Fin 19)] in
  let o := [Heap.VNum (Fin 19); Heap.VNum (Fin 47)] in
  let h : Heap.heap := <[1%positive := c]> (<[2%positive := o]> ∅) in
  exists (l : Heap.loc) (h' : Heap.heap),
    Heap.fromLonLat this 1%positive h = Some (l, h')
    /\ h' !! l = Some [Heap.VNum NaN; Heap.VNum NaN].
Proof.
  cbv zeta.
  set (this := _precalculate 2%positive (Fin 47) (Fin 0) WGS84 "neu").
  set (c := [Heap.VNum (Fin 19)]).
  set (o := [Heap.VNum (Fin 19); Heap.VNum (Fin 47)]).
  set (h := <[1%positive := c]> (<[2%positive := o]> ∅) : Heap.heap).
  assert (Hc : h !! 1%positive = Some c) by apply lookup_insert_eq.
  assert (Ho : h !! _origin this = Some o).
  { unfold h, this. cbn [_origin _precalculate].
    rewrite lookup_insert_ne by discriminate. apply lookup_insert_eq. }
  assert (Hl : (length c < 2)%nat) by (cbn; lia).
  exact (proj1 (conversions_of_short_array this 1%positive h c o Hc Ho Hl)).
Defined.
